(** * Duplicate detection and folder merging: a shallow embedding

    The development follows three scripts of the repository:

    - [merge_customer_folders.py]: [fuzzy_group], [merge_directories], [main];
    - [deduplicate_contracts.py]: [calculate_file_hash], [format_size],
      [deduplicate_folder];
    - [duplicate_scanner.py]: [normalize_filename] and the collection loop
      of [scan_data_files_directory].

    Strings are [string] (one [ascii] per code point, so the model covers
    the Latin-1 range), directories are finite maps from entry names to
    entries, insertion-ordered Python dicts are association lists, and
    everything a script prints or does to the disk is recorded as an
    event of an output trace. *)

From Stdlib Require Import ZArith QArith Qround String Ascii List Bool Lia Lqa.
From Stdlib Require Import DecimalString.
From stdpp Require Import gmap strings list fin_maps sorting.

Local Open Scope string_scope.
Local Open Scope list_scope.

(** ** Fuzzy grouping ([merge_customer_folders.py], lines 26-41) *)

Module Fuzzy.
Section Grouping.

(** [fuzz.ratio] of rapidfuzz: a score between 0 and 100.  It is a
    float; every float is a rational and Python compares a float with
    an integer threshold exactly, so the score is a [Q]. *)
Variable ratio : string -> string -> Q.

(** [group[0]].  Every group is created as [[name]] and only ever
    appended to, so the default is never used ([fuzzy_group_seeded]). *)
Definition seed (group : list string) : string := hd "" group.

(** The inner loop, lines 34-38: the first group whose seed scores at
    least [threshold] gets [name] appended and the loop breaks.  The
    boolean is the flag [added]. *)
Fixpoint scan_groups (threshold : Q) (name : string)
    (groups : list (list string)) : list (list string) * bool :=
  match groups with
  | [] => ([], false)
  | group :: rest =>
      if Qle_bool threshold (ratio name (seed group))
      then ((group ++ [name]) :: rest, true)
      else let '(rest', added) := scan_groups threshold name rest in
           (group :: rest', added)
  end.

(** One iteration of the outer loop, lines 32-40. *)
Definition fuzzy_step (threshold : Q) (groups : list (list string))
    (name : string) : list (list string) :=
  let '(groups', added) := scan_groups threshold name groups in
  if added then groups' else groups' ++ [[name]].

Definition fuzzy_group (names : list string) (threshold : Q)
    : list (list string) :=
  fold_left (fuzzy_step threshold) names [].

(** The spec's wording of one step: the first cluster, in order, whose
    first element scores at least the threshold. *)
Definition scores (threshold : Q) (name : string) (group : list string)
    : Prop := Qle_bool threshold (ratio name (seed group)) = true.

#[local] Instance scores_dec threshold name group :
  Decision (scores threshold name group).
Proof. unfold scores. apply _. Defined.

Definition join_first (threshold : Q) (groups : list (list string))
    (name : string) : list (list string) :=
  match list_find (scores threshold name) groups with
  | Some (i, group) => <[i := group ++ [name]]> groups
  | None => groups ++ [[name]]
  end.

Lemma scan_groups_find threshold name groups :
  scan_groups threshold name groups =
    match list_find (scores threshold name) groups with
    | Some (i, group) => (<[i := group ++ [name]]> groups, true)
    | None => (groups, false)
    end.
Proof.
  induction groups as [|g gs IH]; [done|].
  cbn [scan_groups list_find].
  destruct (decide (scores threshold name g)) as [Hs|Hs]; unfold scores in Hs.
  - by rewrite Hs.
  - apply not_true_is_false in Hs. rewrite Hs, IH.
    destruct (list_find _ gs) as [[i g']|]; done.
Qed.

Lemma fuzzy_step_join threshold groups name :
  fuzzy_step threshold groups name = join_first threshold groups name.
Proof.
  unfold fuzzy_step, join_first. rewrite scan_groups_find.
  destruct (list_find _ groups) as [[i g']|]; done.
Qed.

Lemma fuzzy_group_snoc names name threshold :
  fuzzy_group (names ++ [name]) threshold =
    fuzzy_step threshold (fuzzy_group names threshold) name.
Proof. unfold fuzzy_group. by rewrite fold_left_app. Qed.

Lemma join_first_nonempty threshold groups name :
  Forall (λ g, g ≠ []) groups ->
  Forall (λ g, g ≠ []) (join_first threshold groups name).
Proof.
  intros Hne. unfold join_first.
  destruct (list_find _ groups) as [[i g]|] eqn:E.
  - apply Forall_insert; [done|]. by destruct g.
  - apply Forall_app; split; [done|]. by repeat constructor.
Qed.

Lemma fuzzy_group_seeded names threshold :
  Forall (λ g, g ≠ []) (fuzzy_group names threshold).
Proof.
  induction names as [|n ns IH] using rev_ind; [constructor|].
  rewrite fuzzy_group_snoc, fuzzy_step_join. by apply join_first_nonempty.
Qed.

Lemma join_first_seeds threshold groups name :
  Forall (λ g, g ≠ []) groups ->
  seed <$> groups `prefix_of` seed <$> join_first threshold groups name.
Proof.
  intros Hne. unfold join_first.
  destruct (list_find _ groups) as [[i g]|] eqn:E.
  - apply list_find_Some in E as (Hi & _ & _).
    rewrite list_fmap_insert.
    assert (Hg : g ≠ []) by exact (Forall_lookup_1 _ _ _ _ Hne Hi).
    replace (seed (g ++ [name])) with (seed g) by (by destruct g).
    rewrite list_insert_id; [done|]. by rewrite list_lookup_fmap, Hi.
  - rewrite fmap_app. by apply prefix_app_r.
Qed.

Lemma join_first_concat threshold groups name :
  concat (join_first threshold groups name) ≡ₚ concat groups ++ [name].
Proof.
  unfold join_first.
  destruct (list_find _ groups) as [[i g]|] eqn:E.
  - apply list_find_Some in E as (Hi & _ & _).
    revert i Hi. induction groups as [|h t IH]; intros [|i] Hi; try done.
    + cbn in Hi. injection Hi as ->. cbn. by rewrite <- !(assoc_L (++)),
        (comm (++) [name]).
    + cbn. rewrite IH by done. by rewrite (assoc_L (++)).
  - rewrite concat_app. cbn. by rewrite ?app_nil_r.
Qed.

Lemma fuzzy_group_concat names threshold :
  concat (fuzzy_group names threshold) ≡ₚ names.
Proof.
  induction names as [|n ns IH] using rev_ind; [done|].
  rewrite fuzzy_group_snoc, fuzzy_step_join, join_first_concat.
  by rewrite IH.
Qed.

(** With a scorer that gives 100 to equal strings only, distinct names
    never join a cluster. *)
Lemma fuzzy_group_exact names :
  (forall a b, Qle_bool 100 (ratio a b) = true -> a = b) ->
  NoDup names ->
  fuzzy_group names 100 = (λ n, [n]) <$> names.
Proof.
  intros Hexact. induction names as [|n ns IH] using rev_ind; [done|].
  intros (Hns & Hn & _)%NoDup_app.
  rewrite fuzzy_group_snoc, fuzzy_step_join, IH, fmap_app by done.
  unfold join_first.
  destruct (list_find _ _) as [[i g]|] eqn:E; [|done].
  apply list_find_Some in E as (Hi & Hs & _).
  rewrite list_lookup_fmap in Hi.
  destruct (ns !! i) as [m|] eqn:Hm; [|done].
  injection Hi as <-. apply Hexact in Hs. cbn in Hs. subst m.
  exfalso. apply (Hn n); [|by left].
  by eapply list_elem_of_lookup_2.
Qed.

(** C4: the names are taken one by one in the order of the input.  A
    name is compared with the first element of each cluster only, in the
    order of the clusters: it is appended to the first cluster whose
    first element scores at least the threshold, and starts a cluster of
    its own behind the others when there is none.  Every cluster has a
    first element, which never changes, and the clusters hold the names
    of the input, each as often as the input has it. *)
Theorem fuzzy_group_greedy (names : list string) (name : string)
    (threshold : Q) :
  fuzzy_group [] threshold = []
  /\ fuzzy_group (names ++ [name]) threshold
     = match list_find (scores threshold name) (fuzzy_group names threshold)
       with
       | Some (i, group) =>
           <[i := group ++ [name]]> (fuzzy_group names threshold)
       | None => fuzzy_group names threshold ++ [[name]]
       end
  /\ Forall (λ group, group ≠ []) (fuzzy_group names threshold)
  /\ seed <$> fuzzy_group names threshold
       `prefix_of` seed <$> fuzzy_group (names ++ [name]) threshold
  /\ concat (fuzzy_group names threshold) ≡ₚ names.
Proof.
  split; [done|]. split; [by rewrite fuzzy_group_snoc, fuzzy_step_join|].
  split; [apply fuzzy_group_seeded|]. split; [|apply fuzzy_group_concat].
  rewrite fuzzy_group_snoc, fuzzy_step_join.
  apply join_first_seeds, fuzzy_group_seeded.
Qed.

(** C8: with the threshold 100 and a scorer that gives 100 to equal
    strings only, a list of names without repetition is grouped into
    one cluster per name, each with that name alone (for the empty list
    there is no cluster at all). *)
Theorem fuzzy_group_exact_threshold (names : list string) :
  (forall a b, Qle_bool 100 (ratio a b) = true -> a = b) ->
  NoDup names ->
  Forall (λ group, length group = 1%nat) (fuzzy_group names 100)
  /\ length (fuzzy_group names 100) = length names.
Proof.
  intros Hexact Hnd. rewrite fuzzy_group_exact by done. split.
  - apply Forall_fmap, Forall_forall. done.
  - apply length_fmap.
Qed.

(** *** Invariants of the greedy grouping *)

Lemma fuzzy_group_step names name threshold :
  fuzzy_group (names ++ [name]) threshold
  = join_first threshold (fuzzy_group names threshold) name.
Proof. by rewrite fuzzy_group_snoc, fuzzy_step_join. Qed.

(** X1: every name that joined a cluster scored the threshold or more
    against the first element of that cluster. *)
Theorem fuzzy_group_members_score (names : list string) (threshold : Q) :
  Forall (λ group, forall member, member ∈ tl group ->
                     Qle_bool threshold (ratio member (seed group)) = true)
         (fuzzy_group names threshold).
Proof.
  induction names as [|n ns IH] using rev_ind; [constructor|].
  rewrite fuzzy_group_step. unfold join_first.
  pose proof (fuzzy_group_seeded ns threshold) as Hne.
  destruct (list_find _ _) as [[i g]|] eqn:E.
  - apply list_find_Some in E as (Hi & Hs & _).
    apply Forall_insert; [done|].
    assert (Hg : g ≠ []) by exact (Forall_lookup_1 _ _ _ _ Hne Hi).
    pose proof (Forall_lookup_1 _ _ _ _ IH Hi) as Hmembers.
    destruct g as [|s g]; [done|]. cbn in *. intros member Hin.
    apply elem_of_app in Hin as [Hin|Hin]; [by apply Hmembers|].
    by apply list_elem_of_singleton in Hin as ->.
  - apply Forall_app_2; [done|]. constructor; [|constructor].
    intros member Hin. by apply elem_of_nil in Hin.
Qed.

(** X2: the first element of a cluster scored less than the threshold
    against the first element of every cluster in front of it. *)
Theorem fuzzy_group_seeds_apart (names : list string) (threshold : Q)
    (i j : nat) (earlier later : list string) :
  fuzzy_group names threshold !! i = Some earlier ->
  fuzzy_group names threshold !! j = Some later ->
  (i < j)%nat ->
  Qle_bool threshold (ratio (seed later) (seed earlier)) = false.
Proof.
  revert i j earlier later.
  induction names as [|n ns IH] using rev_ind; intros i j earlier later;
    [done|].
  rewrite fuzzy_group_step. unfold join_first.
  pose proof (fuzzy_group_seeded ns threshold) as Hne.
  destruct (list_find _ _) as [[k g]|] eqn:E.
  - apply list_find_Some in E as (Hk & _ & _).
    assert (Hg : g ≠ []) by exact (Forall_lookup_1 _ _ _ _ Hne Hk).
    assert (Hseed : seed (g ++ [n]) = seed g) by (by destruct g).
    assert (Hkeep : forall a x,
              <[k := g ++ [n]]> (fuzzy_group ns threshold) !! a = Some x ->
              exists y, fuzzy_group ns threshold !! a = Some y
                        /\ seed x = seed y).
    { intros a x Ha. destruct (decide (a = k)) as [->|Hak].
      - rewrite list_lookup_insert_eq in Ha by (by eapply lookup_lt_Some).
        injection Ha as <-. eauto.
      - rewrite list_lookup_insert_ne in Ha by done. eauto. }
    intros (y1 & H1 & ->)%Hkeep (y2 & H2 & ->)%Hkeep Hij. by eapply IH.
  - apply list_find_None in E. intros Hi Hj Hij.
    assert (Hlen : (j < S (length (fuzzy_group ns threshold)))%nat).
    { apply lookup_lt_Some in Hj. rewrite length_app in Hj. cbn in Hj. lia. }
    rewrite lookup_app_l in Hi by lia.
    destruct (decide (j < length (fuzzy_group ns threshold))%nat) as [Hj'|Hj'].
    + rewrite lookup_app_l in Hj by done. by eapply IH.
    + rewrite lookup_app_r in Hj by lia.
      replace (j - length (fuzzy_group ns threshold))%nat with 0%nat in Hj
        by lia.
      injection Hj as <-. cbn [seed hd].
      pose proof (Forall_lookup_1 _ _ _ _ E Hi) as Hno. unfold scores in Hno.
      by apply not_true_is_false.
Qed.

(** X3: when every name scores the threshold or more against the first
    name, the names form one cluster, in the order of the input. *)
Theorem fuzzy_group_one_cluster (names : list string) (threshold : Q) :
  names ≠ [] ->
  (forall name, name ∈ names ->
     Qle_bool threshold (ratio name (hd "" names)) = true) ->
  fuzzy_group names threshold = [names].
Proof.
  induction names as [|n ns IH] using rev_ind; [done|]. intros _ Hall.
  destruct ns as [|first ns]; [done|].
  rewrite fuzzy_group_step, IH; [|done|].
  - unfold join_first. cbn [list_find].
    rewrite decide_True; [done|]. unfold scores. apply Hall.
    apply elem_of_app. right. by left.
  - intros name Hin. apply Hall. apply elem_of_app. by left.
Qed.

(** X4: a cluster lists some of the names in the order the input has them,
    and there are no more clusters than names. *)
Theorem fuzzy_group_keeps_order (names : list string) (threshold : Q) :
  Forall (λ group, sublist group names) (fuzzy_group names threshold)
  /\ (length (fuzzy_group names threshold) <= length names)%nat.
Proof.
  induction names as [|n ns [IH1 IH2]] using rev_ind; [by split|].
  rewrite fuzzy_group_step. unfold join_first.
  assert (Hweak : Forall (λ group, sublist group (ns ++ [n]))
                    (fuzzy_group ns threshold)).
  { eapply Forall_impl; [exact IH1|]. intros g Hg.
    by apply sublist_inserts_r. }
  destruct (list_find _ _) as [[i g]|] eqn:E.
  - apply list_find_Some in E as (Hi & _ & _). split.
    + apply Forall_insert; [done|]. apply sublist_app; [|done].
      exact (Forall_lookup_1 _ _ _ _ IH1 Hi).
    + rewrite length_insert, length_app. cbn. lia.
  - split.
    + apply Forall_app_2; [done|]. constructor; [|constructor].
      apply sublist_inserts_l. done.
    + rewrite !length_app. cbn. lia.
Qed.

End Grouping.

(** *** A concrete scorer

    rapidfuzz documents [fuzz.ratio] as the normalised Indel similarity:
    [100 * (1 - d / (len a + len b))] where [d], the Indel distance, is
    [len a + len b - 2 * lcs a b], and 100 for two empty strings.  It is
    computed here without rounding. *)

Fixpoint lcs (a b : string) : nat :=
  match a with
  | EmptyString => 0
  | String x a' =>
      (fix lcs_row (b : string) : nat :=
         match b with
         | EmptyString => 0
         | String y b' =>
             if Ascii.eqb x y then S (lcs a' b')
             else Nat.max (lcs a' b) (lcs_row b')
         end) b
  end.

Definition indel_ratio (a b : string) : Q :=
  let total := (String.length a + String.length b)%nat in
  if Nat.eqb total 0 then 100
  else Qmake (200 * Z.of_nat (lcs a b)) (Pos.of_nat total).

Lemma lcs_le a b :
  (lcs a b <= String.length a)%nat ∧ (lcs a b <= String.length b)%nat.
Proof.
  revert b. induction a as [|x a IH]; intros b; [cbn; lia|].
  induction b as [|y b IHb]; [cbn; lia|].
  cbn [lcs String.length]. destruct (Ascii.eqb x y).
  - destruct (IH b). lia.
  - destruct (IH (String y b)) as [H1 H2]. cbn [String.length] in H2.
    cbn [lcs String.length] in IHb. lia.
Qed.

Lemma lcs_full a b :
  lcs a b = String.length a -> String.length a = String.length b -> a = b.
Proof.
  revert b. induction a as [|x a IH]; intros [|y b]; try done.
  cbn [lcs String.length]. destruct (Ascii.eqb x y) eqn:E.
  - apply Ascii.eqb_eq in E as ->. intros H1 H2. f_equal. apply IH; lia.
  - intros H1 H2. exfalso.
    destruct (lcs_le a (String y b)) as [H3 _].
    destruct (lcs_le (String x a) b) as [_ H4].
    cbn [lcs] in H4. lia.
Qed.

Lemma indel_ratio_100_eq a b :
  Qle_bool 100 (indel_ratio a b) = true -> a = b.
Proof.
  unfold indel_ratio.
  destruct (Nat.eqb_spec (String.length a + String.length b) 0) as [H0|H0].
  - intros _. destruct a, b; done.
  - intros H%Qle_bool_iff. unfold Qle in H. cbn [Qnum Qden] in H.
    assert (Hpos : Z.pos (Pos.of_nat (String.length a + String.length b))
                   = Z.of_nat (String.length a + String.length b)).
    { rewrite <- positive_nat_Z, Nat2Pos.id; done. }
    rewrite Hpos in H.
    destruct (lcs_le a b). apply lcs_full; lia.
Qed.

End Fuzzy.

(** ** What a run does: the output trace

    Both scripts talk to the terminal and change the disk.  A run is
    observed through the list of its events, oldest first.  A printed
    line is kept as the statement that printed it and the values it
    interpolates. *)

Inductive message : Type :=
  (* merge_customer_folders.py *)
  | RepMissing (rep : string) (group : list string)        (* line 55 *)
  | MergingGroup (group_sorted : list string) (rep : string) (* line 57 *)
  | AlreadyExists (rep item folder : string)               (* line 67 *)
  | MergedRemoved (folder : string)                        (* line 72 *)
  | CouldNotRemove (folder : string)                       (* line 74 *)
  | FolderMissing (folder : string)                        (* line 76 *)
  | FoundCustomers (n : nat)                               (* line 89 *)
  | MergeSuggestions                                       (* line 94 *)
  | Suggestion (rep : string) (group_sorted : list string) (* line 98 *)
  | MergeCancelled                                         (* line 102 *)
  | MergeCompleted                                         (* line 106 *)
  (* deduplicate_contracts.py *)
  | FolderNotFound                                         (* line 52 *)
  | Scanning                                               (* line 55 *)
  | ErrorReading (name : string)                           (* line 33 *)
  | DuplicateGroup (file_hash keep : string)               (* line 78 *)
  | DeletedDuplicate (name : string)                       (* line 83 *)
  | ErrorDeleting (name : string)                          (* line 87 *)
  | DedupComplete (total_removed : nat) (freed : string).  (* line 89 *)

Inductive event : Type :=
  | Print (line : message)
  (** [input(prompt)] returned [answer]. *)
  | Input (prompt answer : string)
  (** [open(filepath, "rb")] was attempted on the entry [name]. *)
  | ReadFile (name : string)
  (** [os.remove] deleted the file [name] of the scanned folder. *)
  | Remove (name : string)
  (** [shutil.move] moved [folder/item] to [rep/item]. *)
  | Move (folder item rep : string)
  (** [os.rmdir] removed the folder [folder]. *)
  | Rmdir (folder : string).

(** The events that change the disk. *)
Definition is_mutation (e : event) : bool :=
  match e with
  | Remove _ | Move _ _ _ | Rmdir _ => true
  | _ => false
  end.

(** The confirmation gate on a trace: whatever changes the disk comes
    after some answer was read from the terminal. *)
Definition gated (trace : list event) : Prop :=
  forall pre e post, trace = pre ++ e :: post -> is_mutation e = true ->
    exists prompt answer, Input prompt answer ∈ pre.

Lemma mutation_after_prefix (base events pre post : list event) (e : event) :
  base ++ events = pre ++ e :: post ->
  Forall (λ b, is_mutation b = false) base ->
  is_mutation e = true ->
  exists pre', pre = base ++ pre' /\ events = pre' ++ e :: post.
Proof.
  revert pre. induction base as [|b base IH]; intros pre Heq Hbase He.
  - by exists pre.
  - apply Forall_cons in Hbase as [Hb Hbase]. destruct pre as [|p pre].
    + cbn in Heq. injection Heq as -> _. congruence.
    + cbn in Heq. injection Heq as -> Heq.
      destruct (IH pre Heq Hbase He) as (pre' & -> & ->). by exists pre'.
Qed.

(** ** The order of a directory listing

    [os.listdir] and [Path.iterdir] return the entries of a directory
    in an order the operating system chooses.  The scripts are modelled
    over any such order. *)

Class DirOrder : Type := {
  listdir : forall {A : Type}, gmap string A -> list string;
  listdir_perm : forall (A : Type) (d : gmap string A),
    listdir d ≡ₚ (map_to_list d).*1
}.

(** One such order, used to run the model on examples. *)
#[local] Instance map_order : DirOrder :=
  {| listdir := fun A d => (map_to_list d).*1;
     listdir_perm := fun A d => reflexivity _ |}.

Lemma elem_of_listdir `{DirOrder} {A} (d : gmap string A) (name : string) :
  name ∈ listdir d <-> is_Some (d !! name).
Proof.
  rewrite listdir_perm, list_elem_of_fmap. split.
  - intros ([k v] & -> & Hin). apply elem_of_map_to_list in Hin. eauto.
  - intros [v Hv]. exists (name, v). split; [done|].
    by apply elem_of_map_to_list.
Qed.

Lemma NoDup_listdir `{DirOrder} {A} (d : gmap string A) : NoDup (listdir d).
Proof. rewrite listdir_perm. apply NoDup_fst_map_to_list. Qed.

(** ** Python's stable sort

    [sorted] and [list.sort] are stable.  Insertion from the right is
    stable too, and a stable sort has one result, so it stands for
    them.  [before x y] says that [x] may stay in front of [y]. *)

Section StableSort.
Context {A : Type} (before : A -> A -> bool).

Fixpoint insert_sorted (x : A) (l : list A) : list A :=
  match l with
  | [] => [x]
  | y :: l' => if before x y then x :: l else y :: insert_sorted x l'
  end.

Definition stable_sort (l : list A) : list A := foldr insert_sorted [] l.

Lemma insert_sorted_perm x l : insert_sorted x l ≡ₚ x :: l.
Proof.
  induction l as [|y l IH]; [done|]. cbn. destruct (before x y); [done|].
  rewrite IH. apply Permutation_swap.
Qed.

Lemma stable_sort_perm l : stable_sort l ≡ₚ l.
Proof.
  induction l as [|x l IH]; [done|]. cbn.
  by rewrite insert_sorted_perm, IH.
Qed.

Hypothesis before_total : forall x y, before x y = true \/ before y x = true.
Hypothesis before_trans :
  forall x y z, before x y = true -> before y z = true -> before x z = true.

Lemma insert_sorted_sorted x l :
  StronglySorted (λ a b, before a b = true) l ->
  StronglySorted (λ a b, before a b = true) (insert_sorted x l).
Proof.
  induction 1 as [|y l Hs IH Hy]; cbn; [by repeat constructor|].
  destruct (before x y) eqn:E.
  - constructor; [by constructor|]. constructor; [done|].
    eapply Forall_impl; [exact Hy|]. intros z Hz. by eapply before_trans.
  - constructor; [done|]. rewrite insert_sorted_perm.
    constructor; [|done]. destruct (before_total x y); congruence.
Qed.

Lemma stable_sort_sorted l :
  StronglySorted (λ a b, before a b = true) (stable_sort l).
Proof.
  induction l as [|x l IH]; cbn; [constructor|]. by apply insert_sorted_sorted.
Qed.

(** The first element of the sorted list may stand in front of all. *)
Lemma stable_sort_head l x rest :
  stable_sort l = x :: rest -> x ∈ l ∧ ∀ y, y ∈ l -> before x y = true.
Proof.
  intros E. pose proof (stable_sort_sorted l) as Hs.
  pose proof (stable_sort_perm l) as Hp. rewrite E in Hs, Hp.
  split; [rewrite <- Hp; by left|].
  intros y Hy. rewrite <- Hp in Hy. apply StronglySorted_inv in Hs as [_ Hx].
  apply elem_of_cons in Hy as [->|Hy].
  - destruct (before_total x x); done.
  - by eapply Forall_forall in Hx.
Qed.

End StableSort.

(** ** Python's string order and string methods *)

Module Py.

(** [str] comparison is by code point, as [String.leb] is. *)
Lemma leb_trans a b c :
  String.leb a b = true -> String.leb b c = true -> String.leb a c = true.
Proof.
  unfold String.leb. revert b c.
  induction a as [|x a IH]; intros [|y b] [|z c]; cbn; try done.
  unfold Ascii.compare.
  destruct (N.compare_spec (N_of_ascii x) (N_of_ascii y)); try done;
  destruct (N.compare_spec (N_of_ascii y) (N_of_ascii z)); try done;
  destruct (N.compare_spec (N_of_ascii x) (N_of_ascii z)); try done;
  try lia. apply IH.
Qed.

(** [sorted(names)]. *)
Definition sorted (names : list string) : list string :=
  stable_sort String.leb names.

(** [str.isspace] on one character, which is also the class [\s] of
    [re] on [str] patterns: in the Latin-1 range the code points 9-13,
    28-32, 0x85 and 0xA0. *)
Definition is_space (c : ascii) : bool :=
  let n := nat_of_ascii c in
  (((9 <=? n) && (n <=? 13)) || ((28 <=? n) && (n <=? 32))
   || (n =? 133) || (n =? 160))%nat.

(** The class [\d] of [re]: in the Latin-1 range the digits 0-9. *)
Definition is_digit (c : ascii) : bool :=
  let n := nat_of_ascii c in ((48 <=? n) && (n <=? 57))%nat.

(** [str.lower] on one character of the Latin-1 range: A-Z and the
    accented capitals 0xC0-0xDE other than the multiplication sign. *)
Definition lower_char (c : ascii) : ascii :=
  let n := nat_of_ascii c in
  if (((65 <=? n) && (n <=? 90))
      || ((192 <=? n) && (n <=? 222) && negb (n =? 215)))%nat
  then ascii_of_nat (n + 32) else c.

Definition lower (s : list ascii) : list ascii := map lower_char s.

Fixpoint lstrip (s : list ascii) : list ascii :=
  match s with
  | [] => []
  | c :: s' => if is_space c then lstrip s' else s
  end.

Fixpoint rstrip (s : list ascii) : list ascii :=
  match s with
  | [] => []
  | c :: s' =>
      match rstrip s' with
      | [] => if is_space c then [] else [c]
      | r => c :: r
      end
  end.

(** [str.strip()]. *)
Definition strip (s : list ascii) : list ascii := rstrip (lstrip s).

End Py.

(** ** Size formatting ([deduplicate_contracts.py], lines 37-46;
    [duplicate_scanner.py], lines 40-49, is the same text)

    [size_bytes] starts as an [int] and becomes a float at the first
    division.  Below 2^53 the conversion is exact, and so is every
    division by 1024, a power of two: the value is the rational number
    computed here. *)

Module FormatSize.

Definition size_names : list string := ["B"; "KB"; "MB"; "GB"].

Definition decimal (n : Z) : string :=
  NilZero.string_of_uint (N.to_uint (Z.to_N n)).

(** [x] as a whole number of tenths.  The format [.1f] rounds the exact
    value to the nearest tenth, a tie to the even one. *)
Definition tenths (x : Q) : Z :=
  let t := (x * 10)%Q in
  let n := Qfloor t in
  match (t - inject_Z n ?= 1 # 2)%Q with
  | Lt => n
  | Gt => (n + 1)%Z
  | Eq => if Z.even n then n else (n + 1)%Z
  end.

(** [f"{x:.1f}"] for [x] that is not negative. *)
Definition fixed1 (x : Q) : string :=
  let k := tenths x in
  decimal (k / 10) +:+ "." +:+ decimal (k mod 10).

(** The loop of lines 43-45.  [i] grows at every turn and stays below
    [len(size_names) - 1], which bounds the number of turns. *)
Fixpoint scale (fuel : nat) (size_bytes : Q) (i : nat) : Q * nat :=
  match fuel with
  | O => (size_bytes, i)
  | S fuel' =>
      if Qle_bool 1024 size_bytes && (i <? length size_names - 1)%nat
      then scale fuel' (size_bytes / 1024)%Q (S i)
      else (size_bytes, i)
  end.

Definition magnitude (size_bytes : Z) : Q * nat :=
  scale (length size_names - 1) (inject_Z size_bytes) 0.

Definition format_size (size_bytes : Z) : string :=
  if (size_bytes =? 0)%Z then "0 B"
  else let '(v, i) := magnitude size_bytes in
       fixed1 v +:+ " " +:+ nth i size_names "".

(** The loop has stopped when the fuel is used up: more turns change
    nothing. *)
Lemma scale_stops fuel size_bytes i :
  (length size_names - 1 <= i + fuel)%nat ->
  forall more, scale (fuel + more) size_bytes i = scale fuel size_bytes i.
Proof.
  revert size_bytes i. induction fuel as [|fuel IH]; intros q i Hi more.
  - destruct more as [|more]; [done|]. cbn [Nat.add scale].
    replace (i <? length size_names - 1)%nat with false
      by (symmetry; apply Nat.ltb_ge; lia).
    by rewrite andb_false_r.
  - cbn [Nat.add scale]. destruct (_ && _); [|done]. apply IH. lia.
Qed.

Lemma tenths_close x :
  (x * 10 - (1 # 2) <= inject_Z (tenths x) <= x * 10 + (1 # 2))%Q.
Proof.
  unfold tenths. set (t := (x * 10)%Q).
  pose proof (Qfloor_le t) as Hlo. pose proof (Qlt_floor t) as Hhi.
  rewrite inject_Z_plus in Hhi. change (inject_Z 1) with 1%Q in Hhi.
  destruct (Qcompare_spec (t - inject_Z (Qfloor t)) (1 # 2)) as [E|L|G].
  - destruct (Z.even (Qfloor t)); rewrite ?inject_Z_plus;
      change (inject_Z 1) with 1%Q; split; lra.
  - split; lra.
  - rewrite inject_Z_plus. change (inject_Z 1) with 1%Q. split; lra.
Qed.

Lemma not_Qle_bool x y : Qle_bool x y = false -> (y < x)%Q.
Proof.
  intros E. apply Qnot_le_lt. rewrite <- Qle_bool_iff. congruence.
Qed.

Ltac magnitude_case :=
  repeat split; try lia; try (intros _);
  repeat match goal with
    | |- context [inject_Z (1024 ^ Z.of_nat ?k)] =>
        let c := eval vm_compute in (inject_Z (1024 ^ Z.of_nat k)) in
        change (inject_Z (1024 ^ Z.of_nat k)) with c
    end;
  lra.

Lemma magnitude_spec size_bytes :
  let '(v, i) := magnitude size_bytes in
  (i <= 3)%nat
  /\ (v * inject_Z (1024 ^ Z.of_nat i) == inject_Z size_bytes)%Q
  /\ ((i < 3)%nat -> (v < 1024)%Q)
  /\ ((0 < i)%nat -> (1 <= v)%Q).
Proof.
  unfold magnitude. cbn [length size_names Nat.sub scale].
  set (q := inject_Z size_bytes) in *.
  assert (H1 : (q / 1024 * 1024 == q)%Q) by field.
  assert (H2 : (q / 1024 / 1024 * 1024 == q / 1024)%Q) by field.
  assert (H3 : (q / 1024 / 1024 / 1024 * 1024 == q / 1024 / 1024)%Q) by field.
  set (v1 := (q / 1024)%Q) in *. set (v2 := (v1 / 1024)%Q) in *.
  set (v3 := (v2 / 1024)%Q) in *.
  destruct (Qle_bool 1024 q) eqn:E1; cbn [andb Nat.ltb Nat.leb];
    [apply Qle_bool_iff in E1|apply not_Qle_bool in E1].
  2:{ magnitude_case. }
  destruct (Qle_bool 1024 v1) eqn:E2; cbn [andb Nat.ltb Nat.leb];
    [apply Qle_bool_iff in E2|apply not_Qle_bool in E2].
  2:{ magnitude_case. }
  destruct (Qle_bool 1024 v2) eqn:E3; cbn [andb Nat.ltb Nat.leb];
    [apply Qle_bool_iff in E3|apply not_Qle_bool in E3].
  2:{ magnitude_case. }
  magnitude_case.
Qed.

(** C9: sizes are shown in the binary units B, KB, MB and GB with one
    digit after the point.  0 is shown as [0 B], 1536 as [1.5 KB] and
    1073741824 as [1.0 GB].  For a size that is not zero the value shown
    is the size divided by [1024 ^ i], where [i] is the index of the
    unit: it is below 1024 unless the unit is GB, at least 1 unless the
    unit is B, and it is rounded to the nearest tenth. *)
Theorem format_size_binary_units (size_bytes : Z) :
  (0 < size_bytes < 2 ^ 53)%Z ->
  format_size 0 = "0 B"
  /\ format_size 1536 = "1.5 KB"
  /\ format_size 1073741824 = "1.0 GB"
  /\ exists (v : Q) (i : nat) (unit : string),
       size_names !! i = Some unit
       /\ (v * inject_Z (1024 ^ Z.of_nat i) == inject_Z size_bytes)%Q
       /\ ((i < 3)%nat -> (v < 1024)%Q)
       /\ ((0 < i)%nat -> (1 <= v)%Q)
       /\ (v * 10 - (1 # 2) <= inject_Z (tenths v) <= v * 10 + (1 # 2))%Q
       /\ (0 <= tenths v mod 10 < 10)%Z
       /\ format_size size_bytes
          = (decimal (tenths v / 10) +:+ "." +:+ decimal (tenths v mod 10))
            +:+ " " +:+ unit.
Proof.
  intros [Hpos _]. repeat split; try by vm_compute.
  pose proof (magnitude_spec size_bytes) as Hm. unfold format_size.
  rewrite (proj2 (Z.eqb_neq size_bytes 0)) by lia.
  destruct (magnitude size_bytes) as [v i].
  destruct Hm as (Hi & Hv & Hlt & Hge).
  destruct (lookup_lt_is_Some_2 size_names i) as [unit Hunit]; [cbn; lia|].
  exists v, i, unit. repeat split; try done.
  - apply tenths_close.
  - apply tenths_close.
  - by apply Z.mod_pos_bound.
  - by apply Z.mod_pos_bound.
  - unfold fixed1. by rewrite (nth_lookup_Some _ _ _ _ Hunit).
Qed.

(** X14: a size below 1024 is shown as it is, in bytes, with [.0] behind
    it. *)
Theorem format_size_small_is_exact (size_bytes : Z) :
  (0 < size_bytes < 1024)%Z ->
  format_size size_bytes = (decimal size_bytes +:+ "." +:+ "0") +:+ " " +:+ "B".
Proof.
  intros [Hpos Hsmall]. unfold format_size, magnitude.
  rewrite (proj2 (Z.eqb_neq size_bytes 0)) by lia.
  cbn [length size_names Nat.sub scale].
  assert (Hlt : Qle_bool 1024 (inject_Z size_bytes) = false).
  { destruct (Qle_bool 1024 (inject_Z size_bytes)) eqn:E; [|done].
    apply Qle_bool_iff in E. change 1024%Q with (inject_Z 1024) in E.
    rewrite <- Zle_Qle in E. lia. }
  rewrite Hlt. cbn [andb nth].
  assert (Htenths : tenths (inject_Z size_bytes) = (size_bytes * 10)%Z).
  { unfold tenths.
    assert (Heq : (inject_Z size_bytes * 10 == inject_Z (size_bytes * 10))%Q)
      by (rewrite inject_Z_mult; reflexivity).
    rewrite (Qfloor_comp _ _ Heq), Qfloor_Z.
    assert (Hzero : (inject_Z size_bytes * 10 - inject_Z (size_bytes * 10) == 0)%Q)
      by (rewrite Heq; ring).
    destruct (Qcompare_spec (inject_Z size_bytes * 10
                             - inject_Z (size_bytes * 10)) (1 # 2))
      as [E|L|G]; [| done |]; rewrite Hzero in *; discriminate. }
  unfold fixed1. rewrite Htenths.
  by rewrite Z.div_mul, Z.mod_mul by lia.
Qed.

End FormatSize.

(** ** The merge executor ([merge_customer_folders.py], lines 44-106) *)

Module Merge.
Section Executor.

Context `{DirOrder}.

(** What a customer folder holds directly, a file or a whole subtree:
    [shutil.move] moves it as a unit. *)
Variable Item : Type.

(** An entry of the root directory. *)
Inductive node : Type :=
  | File
  | Folder (children : gmap string Item).

(** The operating system may refuse a move or a removal for reasons of
    its own (permissions, locks). *)
Variable permits_move : string -> string -> bool.
Variable permits_rmdir : string -> bool.

Record world : Type := World {
  fs : gmap string node;
  out : list event
}.

Inductive status : Type := Returned | Raised.

Definition action : Type := world -> status * world.

Definition log (e : event) : action :=
  fun w => (Returned, World (fs w) (out w ++ [e])).

Definition raise : action := fun w => (Raised, w).

Definition skip : action := fun w => (Returned, w).

(** Sequencing: an exception ends the run where it is raised. *)
Definition and_then (a b : action) : action :=
  fun w => match a w with
           | (Returned, w') => b w'
           | (Raised, w') => (Raised, w')
           end.

Notation "a >>> b" := (and_then a b) (at level 65, right associativity).

Fixpoint for_each {X : Type} (body : X -> action) (xs : list X) : action :=
  match xs with
  | [] => skip
  | x :: xs' => body x >>> for_each body xs'
  end.

(** Lines 64-69, for one [item] of the listing of [folder].
    [os.path.exists(dst)] holds when [rep] is a folder with an entry
    [item].  Otherwise [shutil.move] renames [folder/item] to
    [rep/item]; it raises when [rep] is not a folder, when the source
    is gone or when the system refuses. *)
Definition move_item (rep folder item : string) : action :=
  fun w =>
    match fs w !! rep with
    | Some (Folder into) =>
        match into !! item with
        | Some _ => log (Print (AlreadyExists rep item folder)) w
        | None =>
            match fs w !! folder with
            | Some (Folder from) =>
                match from !! item with
                | Some x =>
                    if permits_move folder item then
                      (Returned,
                       World (<[rep := Folder (<[item := x]> into)]>
                                (<[folder := Folder (delete item from)]> (fs w)))
                             (out w ++ [Move folder item rep]))
                    else raise w
                | None => raise w
                end
            | _ => raise w
            end
        end
    | _ => raise w
    end.

(** Lines 70-74: [os.rmdir] removes an empty directory; any [OSError]
    is caught and reported. *)
Definition remove_folder (folder : string) : action :=
  fun w =>
    match fs w !! folder with
    | Some (Folder from) =>
        if decide (from = ∅) then
          if permits_rmdir folder then
            (Returned, World (delete folder (fs w))
                             (out w ++ [Rmdir folder; Print (MergedRemoved folder)]))
          else log (Print (CouldNotRemove folder)) w
        else log (Print (CouldNotRemove folder)) w
    | _ => log (Print (CouldNotRemove folder)) w
    end.

(** Lines 58-76, for one [folder] of the sorted group. *)
Definition merge_folder (rep folder : string) : action :=
  fun w =>
    if decide (folder = rep) then skip w
    else match fs w !! folder with
         | Some (Folder from) =>
             (for_each (move_item rep folder) (listdir from) >>>
              remove_folder folder) w
         | _ => log (Print (FolderMissing folder)) w
         end.

(** [group_sorted[0]], lines 51-52; the group has two names or more. *)
Definition representative (group : list string) : string :=
  hd "" (Py.sorted group).

(** Lines 50-76, for one group. *)
Definition merge_group (group : list string) : action :=
  fun w =>
    if decide (1 < length group) then
      let group_sorted := Py.sorted group in
      let rep := representative group in
      match fs w !! rep with
      | None => log (Print (RepMissing rep group)) w
      | Some _ =>
          (log (Print (MergingGroup group_sorted rep)) >>>
           for_each (merge_folder rep) group_sorted) w
      end
    else skip w.

Definition merge_directories (groups : list (list string)) : action :=
  for_each merge_group groups.

(** *** [main], lines 87-106

    [ratio] is rapidfuzz's scorer, [answer] the line typed at the
    prompt.  The path of the root directory is resolved before anything
    else and is not part of the model. *)

Variable ratio : string -> string -> Q.

Definition is_folder (n : node) : bool :=
  match n with Folder _ => true | File => false end.

(** Line 88. *)
Definition customers (root : gmap string node) : list string :=
  filter (λ name, from_option is_folder false (root !! name) = true)
         (listdir root).

(** Lines 95-98. *)
Definition print_suggestion (group : list string) : action :=
  fun w =>
    if decide (1 < length group) then
      log (Print (Suggestion (representative group) (Py.sorted group))) w
    else skip w.

Definition confirm_prompt : string := "Proceed with merging? (y/n): ".

(** [confirm = input(...).strip().lower()] and the test [confirm != 'y']. *)
Definition affirmative (answer : string) : bool :=
  bool_decide
    (Py.lower (Py.strip (list_ascii_of_string answer)) = ["y"%char]).

Definition main (answer : string) : action :=
  fun w =>
    let names := customers (fs w) in
    let groups := Fuzzy.fuzzy_group ratio names 80 in
    (log (Print (FoundCustomers (length names))) >>>
     log (Print MergeSuggestions) >>>
     for_each print_suggestion groups >>>
     log (Input confirm_prompt answer) >>>
     (if affirmative answer
      then merge_directories groups >>> log (Print MergeCompleted)
      else log (Print MergeCancelled))) w.

(** *** The representative *)

Lemma sorted_head group :
  1 < length group ->
  exists rest, Py.sorted group = representative group :: rest.
Proof.
  intros Hlen. unfold representative.
  destruct (Py.sorted group) as [|x rest] eqn:E; [|by exists rest].
  pose proof (stable_sort_perm String.leb group) as Hp.
  unfold Py.sorted in E. rewrite E in Hp.
  apply Permutation_length in Hp. cbn in Hp. lia.
Qed.

Lemma representative_least group :
  1 < length group ->
  representative group ∈ group
  ∧ ∀ name, name ∈ group -> String.leb (representative group) name = true.
Proof.
  intros [rest E]%sorted_head.
  eapply stable_sort_head; [apply String.leb_total|apply Py.leb_trans|exact E].
Qed.

(** *** Loops *)

Lemma for_each_invariant {X : Type} (P : world -> Prop) (body : X -> action)
    (xs : list X) (w : world) :
  (forall x w, P w -> P (body x w).2) -> P w -> P (for_each body xs w).2.
Proof.
  intros Hbody. revert w. induction xs as [|x xs IH]; intros w Hw; [done|].
  cbn. unfold and_then. specialize (Hbody x w Hw).
  destruct (body x w) as [[] w1]; [by apply IH|done].
Qed.


(** *** A name that is already taken at the destination

    The state of the two folders while the children of [folder] are
    moved into [rep], for a child [item] whose name [rep] already had
    when the loop started. *)






(** C6: among the names of a cluster of two or more the representative
    is the least in the order of strings.  When no entry of that name
    exists in the root directory, the cluster is reported and skipped:
    the directory tree is handed unchanged to the remaining clusters. *)
Theorem merge_skips_missing_representative (group : list string)
    (rest : list (list string)) (w : world) :
  1 < length group ->
  (representative group ∈ group
   /\ forall name, name ∈ group ->
        String.leb (representative group) name = true)
  /\ (fs w !! representative group = None ->
       merge_directories (group :: rest) w
       = merge_directories rest
           (World (fs w)
                  (out w ++ [Print (RepMissing (representative group) group)]))).
Proof.
  intros Hlen. split; [by apply representative_least|].
  intros Hmissing. unfold merge_directories. cbn [for_each].
  unfold and_then, merge_group. rewrite decide_True by done.
  by rewrite Hmissing.
Qed.

(** *** The trace of [main] *)

Definition extends (before : list event) (w : world) : Prop :=
  exists events, out w = before ++ events.

Lemma extends_refl w : extends (out w) w.
Proof. exists []. by rewrite app_nil_r. Qed.

Lemma extends_trans before w1 w2 :
  extends before w1 -> extends (out w1) w2 -> extends before w2.
Proof.
  intros [e1 H1] [e2 H2]. exists (e1 ++ e2).
  by rewrite H2, H1, (assoc_L (++)).
Qed.

Lemma for_each_extends {X : Type} (body : X -> action) xs w :
  (forall x w1, extends (out w1) (snd (body x w1))) ->
  extends (out w) (snd (for_each body xs w)).
Proof.
  intros Hbody. apply (for_each_invariant (extends (out w))).
  - intros x w1 Hw1. eapply extends_trans; [exact Hw1|apply Hbody].
  - apply extends_refl.
Qed.

Lemma and_then_extends (a b : action) w :
  (forall w1, extends (out w1) (snd (a w1))) ->
  (forall w1, extends (out w1) (snd (b w1))) ->
  extends (out w) (snd ((a >>> b) w)).
Proof.
  intros Ha Hb. unfold and_then. specialize (Ha w).
  destruct (a w) as [[] w1]; [|done].
  eapply extends_trans; [exact Ha|apply Hb].
Qed.

Lemma log_extends e w : extends (out w) (snd (log e w)).
Proof. by exists [e]. Qed.

Lemma move_item_extends rep folder i w :
  extends (out w) (snd (move_item rep folder i w)).
Proof.
  unfold move_item.
  repeat (case_match; try apply extends_refl; try apply log_extends).
  all: by eexists.
Qed.

Lemma remove_folder_extends folder w :
  extends (out w) (snd (remove_folder folder w)).
Proof.
  unfold remove_folder.
  repeat (case_match; try apply extends_refl; try apply log_extends).
  all: by eexists.
Qed.

Lemma merge_folder_extends rep folder w :
  extends (out w) (snd (merge_folder rep folder w)).
Proof.
  unfold merge_folder.
  repeat (case_match; try apply extends_refl; try apply log_extends).
  apply and_then_extends.
  - intros w1. apply for_each_extends. intros. apply move_item_extends.
  - apply remove_folder_extends.
Qed.

Lemma merge_group_extends group w :
  extends (out w) (snd (merge_group group w)).
Proof.
  unfold merge_group.
  repeat (case_match; try apply extends_refl; try apply log_extends).
  apply and_then_extends; [apply log_extends|].
  intros w1. apply for_each_extends. intros. apply merge_folder_extends.
Qed.

Lemma merge_directories_extends groups w :
  extends (out w) (snd (merge_directories groups w)).
Proof. apply for_each_extends. intros. apply merge_group_extends. Qed.

(** The merge suggestions, lines 95-98. *)
Definition suggestions (groups : list (list string)) : list event :=
  groups ≫= λ group,
    if decide (1 < length group)
    then [Print (Suggestion (representative group) (Py.sorted group))]
    else [].

Lemma print_suggestions groups w :
  for_each print_suggestion groups w
  = (Returned, World (fs w) (out w ++ suggestions groups)).
Proof.
  revert w. induction groups as [|g groups IH]; intros w.
  - cbn. rewrite app_nil_r. by destruct w.
  - cbn [for_each]. unfold and_then, print_suggestion at 1.
    unfold suggestions. cbn [mbind list_bind]. fold (suggestions groups).
    destruct (decide (1 < length g)); cbn; rewrite IH; cbn.
    + by rewrite <- (assoc_L (++)).
    + done.
Qed.

Lemma suggestions_harmless groups :
  Forall (λ e, is_mutation e = false) (suggestions groups).
Proof.
  unfold suggestions. apply Forall_forall. intros e He.
  apply list_elem_of_bind in He as (g & He & _).
  destruct (decide (1 < length g)); [|by apply elem_of_nil in He].
  by apply list_elem_of_singleton in He as ->.
Qed.

Lemma suggestions_complete groups group :
  group ∈ groups -> 1 < length group ->
  Print (Suggestion (representative group) (Py.sorted group))
    ∈ suggestions groups.
Proof.
  intros Hin Hlen. unfold suggestions. apply list_elem_of_bind.
  exists group. split; [|done]. rewrite decide_True by done. by left.
Qed.

(** What is printed and read before anything is decided. *)
Definition preamble (answer : string) (root : gmap string node) : list event :=
  let names := customers root in
  [Print (FoundCustomers (length names)); Print MergeSuggestions]
  ++ suggestions (Fuzzy.fuzzy_group ratio names 80)
  ++ [Input confirm_prompt answer].

Lemma main_trace answer root :
  exists events,
    out (snd (main answer (World root []))) = preamble answer root ++ events
    /\ (affirmative answer = false -> events = [Print MergeCancelled]).
Proof.
  unfold main, preamble. unfold and_then, log. cbn [fs out].
  rewrite print_suggestions. cbn [fs out].
  destruct (affirmative answer).
  - match goal with
    | |- context [ merge_directories ?g ?w ] =>
        destruct (merge_directories_extends g w) as [evs Hevs];
        destruct (merge_directories g w) as [[] w']
    end; cbn [fst snd fs out] in *; rewrite Hevs.
    + exists (evs ++ [Print MergeCompleted]). split; [|done].
      cbn. by rewrite <- !(assoc_L (++)).
    + exists evs. split; [|done]. cbn. by rewrite <- !(assoc_L (++)).
  - exists [Print MergeCancelled]. split; [|done]. cbn.
    by rewrite <- !(assoc_L (++)).
Qed.

Lemma preamble_harmless answer root :
  Forall (λ e, is_mutation e = false) (preamble answer root).
Proof.
  unfold preamble. repeat (apply Forall_cons; split; [done|]).
  apply Forall_app. split; [apply suggestions_harmless|].
  by repeat constructor.
Qed.

Lemma preamble_asks answer root :
  Input confirm_prompt answer ∈ preamble answer root.
Proof.
  unfold preamble. apply elem_of_app. right. apply elem_of_app. right.
  by left.
Qed.

Lemma main_gated answer root : gated (out (snd (main answer (World root [])))).
Proof.
  intros pre e post Heq He.
  destruct (main_trace answer root) as (events & Hout & _).
  rewrite Hout in Heq.
  destruct (mutation_after_prefix _ _ _ _ _ Heq (preamble_harmless _ _) He)
    as (pre' & -> & _).
  exists confirm_prompt, answer. apply elem_of_app. left.
  apply preamble_asks.
Qed.

(** C2, for the merge: nothing is moved and no folder is removed before
    the suggestion for every cluster of two names or more was printed
    and the answer read at the prompt, stripped and in lower case, was
    [y]. *)
Theorem merge_waits_for_confirmation (answer : string)
    (root : gmap string node) (pre post : list event) (e : event) :
  out (snd (main answer (World root []))) = pre ++ e :: post ->
  is_mutation e = true ->
  affirmative answer = true
  /\ Input confirm_prompt answer ∈ pre
  /\ forall group,
       group ∈ Fuzzy.fuzzy_group ratio (customers root) 80 ->
       1 < length group ->
       Print (Suggestion (representative group) (Py.sorted group)) ∈ pre.
Proof.
  intros Heq He.
  destruct (main_trace answer root) as (events & Hout & Hno).
  rewrite Hout in Heq.
  destruct (mutation_after_prefix _ _ _ _ _ Heq (preamble_harmless _ _) He)
    as (pre' & -> & Hevents).
  split; [|split].
  - destruct (affirmative answer); [done|].
    rewrite Hno in Hevents by done.
    destruct pre' as [|? [|? ?]]; cbn in Hevents; try done.
    injection Hevents as <- _. done.
  - apply elem_of_app. left. apply preamble_asks.
  - intros group Hin Hlen. unfold preamble.
    rewrite !elem_of_app. left. right. left.
    by apply suggestions_complete.
Qed.

(** *** What a merge leaves behind *)

(** X5: cancelling: any answer that is not [y] once stripped and in lower
    case ends the run after the suggestions, with the directory tree
    as it was. *)
Theorem merge_cancelled_leaves_tree (answer : string)
    (root : gmap string node) :
  affirmative answer = false ->
  main answer (World root [])
  = (Returned, World root (preamble answer root ++ [Print MergeCancelled])).
Proof.
  intros Hno. unfold main, preamble, and_then, log. cbn [fs out].
  rewrite print_suggestions, Hno. cbn [fs out]. do 2 f_equal.
Qed.











End Executor.
End Merge.

(** ** Deduplication by content ([deduplicate_contracts.py], lines 24-89) *)

Module Dedup.
Section Folder.

Context `{DirOrder}.

(** [hashlib.md5(content).hexdigest()].  The file is read in chunks of
    4096 bytes and the digest is the digest of their concatenation. *)
Variable md5 : string -> string.

(** An entry of the scanned folder. *)
Record entry : Type := Entry {
  is_file : bool;            (* [Path.is_file()] *)
  content : option string;   (* the bytes, [None] when they cannot be read *)
  st_mtime : Q;              (* a float, hence a rational *)
  st_size : Z;
  removable : bool           (* whether [os.remove] succeeds *)
}.

(** [calculate_file_hash], lines 24-34: the digest, or [None] after any
    exception, with what the call did. *)
Definition calculate_file_hash (name : string) (e : entry)
    : option string * list event :=
  match content e with
  | Some bytes => (Some (md5 bytes), [ReadFile name])
  | None => (None, [ReadFile name; Print (ErrorReading name)])
  end.

(** [name.startswith('.')]. *)
Definition hidden (name : string) : bool := String.prefix "." name.

(** The dict [file_hashes], in insertion order: a digest and the files
    that have it, each with its modification time. *)
Definition file_hashes : Type := list (string * list (string * Q)).

(** [file_hashes.setdefault(file_hash, []).append(item)]. *)
Fixpoint setdefault_append (file_hash : string) (item : string * Q)
    (hashes : file_hashes) : file_hashes :=
  match hashes with
  | [] => [(file_hash, [item])]
  | (k, files) :: rest =>
      if String.eqb k file_hash then (k, files ++ [item]) :: rest
      else (k, files) :: setdefault_append file_hash item rest
  end.

(** Lines 60-66, for one entry of the listing. *)
Definition scan_entry (folder : gmap string entry)
    (acc : file_hashes * list event) (name : string)
    : file_hashes * list event :=
  match folder !! name with
  | Some e =>
      if is_file e && negb (hidden name) then
        match calculate_file_hash name e with
        | (None, events) => (acc.1, acc.2 ++ events)
        | (Some file_hash, events) =>
            (setdefault_append file_hash (name, st_mtime e) acc.1,
             acc.2 ++ events)
        end
      else acc
  | None => acc
  end.

(** Lines 55-66. *)
Definition scan (folder : gmap string entry) : file_hashes * list event :=
  fold_left (scan_entry folder) (listdir folder) ([], [Print Scanning]).

(** Lines 75-77: the files sorted by modification time, newest first,
    the first one to keep and the others to delete. *)
Definition newest_first (files : list (string * Q)) : list (string * Q) :=
  stable_sort (λ a b, Qle_bool b.2 a.2) files.

Definition resolve (files : list (string * Q)) : string * list string :=
  let sorted_files := newest_first files in
  ((hd ("", 0%Q) sorted_files).1, (tl sorted_files).*1).

Record state : Type := State {
  fs : gmap string entry;
  out : list event;
  total_removed : nat;
  total_space : Z
}.

(** Lines 80-87, for one file to delete. *)
Definition delete_file (st : state) (name : string) : state :=
  match fs st !! name with
  | Some e =>
      if removable e then
        State (delete name (fs st))
              (out st ++ [Remove name; Print (DeletedDuplicate name)])
              (S (total_removed st))
              (total_space st + st_size e)
      else State (fs st) (out st ++ [Print (ErrorDeleting name)])
                 (total_removed st) (total_space st)
  | None => State (fs st) (out st ++ [Print (ErrorDeleting name)])
                  (total_removed st) (total_space st)
  end.

(** Lines 72-87, for one group. *)
Definition process_group (st : state) (group : string * list (string * Q))
    : state :=
  let '(file_hash, files) := group in
  if decide (1 < length files) then
    let '(keep_file, to_delete) := resolve files in
    fold_left delete_file to_delete
      (State (fs st) (out st ++ [Print (DuplicateGroup file_hash keep_file)])
             (total_removed st) (total_space st))
  else st.

(** The line printed last, line 89. *)
Definition summary (st : state) : message :=
  DedupComplete (total_removed st) (FormatSize.format_size (total_space st)).

(** [deduplicate_folder]; [None] is a path where nothing exists.  The
    result is the folder as the run leaves it and the trace. *)
Definition deduplicate_folder (folder : option (gmap string entry))
    : option (gmap string entry) * list event :=
  match folder with
  | None => (None, [Print FolderNotFound])
  | Some d =>
      let '(hashes, events) := scan d in
      let st := fold_left process_group hashes (State d events 0 0) in
      (Some (fs st), out st ++ [Print (summary st)])
  end.

(** *** What the scan groups *)

(** The files in the groups, each with the digest of its group, group
    after group. *)
Definition pairs (hashes : file_hashes) : list (string * (string * Q)) :=
  hashes ≫= λ group, (group.1 ,.) <$> group.2.

Definition grouped (hashes : file_hashes) : list string :=
  (pairs hashes).*2.*1.

Definition in_group (hashes : file_hashes) (file_hash : string)
    (item : string * Q) : Prop :=
  (file_hash, item) ∈ pairs hashes.

(** [name] is a regular file of [folder], not hidden, whose bytes were
    read and have the digest [file_hash]; [mtime] is its modification
    time. *)
Definition hashed (folder : gmap string entry) (name file_hash : string)
    (mtime : Q) : Prop :=
  exists e bytes,
    folder !! name = Some e /\ is_file e = true /\ hidden name = false /\
    content e = Some bytes /\ file_hash = md5 bytes /\ mtime = st_mtime e.

Definition accepted (folder : gmap string entry) (name : string) : bool :=
  match folder !! name with
  | Some e =>
      is_file e && negb (hidden name) && bool_decide (is_Some (content e))
  | None => false
  end.

Lemma in_group_iff hashes h item :
  in_group hashes h item
  <-> exists files, (h, files) ∈ hashes /\ item ∈ files.
Proof.
  unfold in_group, pairs. rewrite list_elem_of_bind. split.
  - intros ([k files] & Hin & Hg). cbn in Hin.
    apply list_elem_of_fmap in Hin as (item' & [= -> ->] & Hin). eauto.
  - intros (files & Hg & Hin). exists (h, files). split; [|done].
    cbn. apply list_elem_of_fmap. eauto.
Qed.

Lemma pairs_cons k files rest :
  pairs ((k, files) :: rest) = ((k ,.) <$> files) ++ pairs rest.
Proof. done. Qed.

Lemma grouped_cons k files rest :
  grouped ((k, files) :: rest) = files.*1 ++ grouped rest.
Proof.
  unfold grouped. rewrite pairs_cons, !fmap_app. f_equal.
  rewrite <- !list_fmap_compose. by apply list_fmap_ext.
Qed.

Lemma setdefault_append_pairs h item hashes :
  pairs (setdefault_append h item hashes) ≡ₚ pairs hashes ++ [(h, item)].
Proof.
  induction hashes as [|[k files] rest IH]; cbn [setdefault_append]; [done|].
  destruct (String.eqb_spec k h) as [->|Hk]; rewrite !pairs_cons.
  - rewrite fmap_app. cbn. rewrite <- !(assoc_L (++)). f_equiv.
    apply Permutation_app_comm.
  - by rewrite IH, (assoc_L (++)).
Qed.

Lemma setdefault_append_grouped h item hashes :
  grouped (setdefault_append h item hashes) ≡ₚ grouped hashes ++ [item.1].
Proof.
  unfold grouped. by rewrite setdefault_append_pairs, !fmap_app.
Qed.

Lemma setdefault_append_in_group h item hashes h' item' :
  in_group (setdefault_append h item hashes) h' item'
  <-> in_group hashes h' item' \/ (h' = h /\ item' = item).
Proof.
  unfold in_group.
  rewrite setdefault_append_pairs, elem_of_app, list_elem_of_singleton.
  split; (intros [?|Heq]; [by left|right]); [by injection Heq|].
  by destruct Heq as [-> ->].
Qed.

Lemma scan_entry_in_group folder acc name h item :
  in_group (scan_entry folder acc name).1 h item
  <-> in_group acc.1 h item \/ (item.1 = name /\ hashed folder name h item.2).
Proof.
  unfold scan_entry, hashed, calculate_file_hash.
  destruct (folder !! name) as [e|] eqn:He.
  2:{ split; [by left|]. intros [?|(_ & ? & ? & ? & _)]; done. }
  destruct (is_file e) eqn:Hf; cbn [andb].
  2:{ split; [by left|]. intros [?|(_ & ? & ? & [= <-] & ? & _)]; congruence. }
  destruct (hidden name) eqn:Hh; cbn [negb].
  { split; [by left|]. intros [?|(_ & ? & ? & _ & _ & ? & _)]; congruence. }
  destruct (content e) as [bytes|] eqn:Hc; cbn [fst snd].
  - rewrite setdefault_append_in_group. split.
    + intros [?|[-> ->]]; [by left|]. right. split; [done|].
      exists e, bytes. done.
    + intros [?|(<- & e' & bytes' & [= <-] & _ & _ & Hc' & -> & Ht)];
        [by left|].
      right. rewrite Hc in Hc'. injection Hc' as <-. split; [done|].
      destruct item as [n t]. cbn in *. by rewrite Ht.
  - split; [by left|].
    intros [?|(_ & ? & ? & [= <-] & _ & _ & ? & _)]; congruence.
Qed.

Lemma scan_fold_in_group folder names acc h item :
  in_group (fold_left (scan_entry folder) names acc).1 h item
  <-> in_group acc.1 h item
      \/ (item.1 ∈ names /\ hashed folder item.1 h item.2).
Proof.
  revert acc. induction names as [|n names IH]; intros acc; cbn [fold_left].
  - split; [by left|]. intros [?|[Hin _]]; [done|by apply elem_of_nil in Hin].
  - rewrite IH, scan_entry_in_group, elem_of_cons. split.
    + intros [[?|[<- ?]]|[? ?]]; auto.
    + intros [?|[[->|?] ?]]; auto.
Qed.

(** A file is in the group of a digest exactly when it is a regular
    file of the folder, not hidden, that was read and has that
    digest. *)
Lemma scan_in_group folder h name mtime :
  in_group (scan folder).1 h (name, mtime) <-> hashed folder name h mtime.
Proof.
  unfold scan. rewrite scan_fold_in_group. cbn [fst snd]. split.
  - intros [Hin|[_ ?]]; [by apply elem_of_nil in Hin|done].
  - intros Hh. right. split; [|done].
    destruct Hh as (e & _ & He & _). apply elem_of_listdir. eauto.
Qed.

Lemma scan_entry_grouped folder acc name :
  grouped (scan_entry folder acc name).1
  ≡ₚ grouped acc.1 ++ (if accepted folder name then [name] else []).
Proof.
  unfold scan_entry, accepted, calculate_file_hash.
  destruct (folder !! name) as [e|]; [|by rewrite app_nil_r].
  destruct (is_file e); cbn [andb]; [|by rewrite app_nil_r].
  destruct (hidden name); cbn [negb andb]; [by rewrite app_nil_r|].
  destruct (content e) as [bytes|]; cbn [fst snd].
  - rewrite setdefault_append_grouped. by rewrite bool_decide_true by eauto.
  - rewrite bool_decide_false by (by intros [? ?]). by rewrite app_nil_r.
Qed.

Lemma scan_fold_grouped folder names acc :
  grouped (fold_left (scan_entry folder) names acc).1
  ≡ₚ grouped acc.1 ++ filter (λ n, accepted folder n = true) names.
Proof.
  revert acc. induction names as [|n names IH]; intros acc; cbn [fold_left].
  - by rewrite app_nil_r.
  - rewrite IH, scan_entry_grouped, <- (assoc_L (++)). f_equiv.
    rewrite filter_cons. destruct (accepted folder n); by case_decide.
Qed.

(** No file is in two groups, or twice in one. *)
Lemma scan_grouped_NoDup folder : NoDup (grouped (scan folder).1).
Proof.
  unfold scan. rewrite scan_fold_grouped. cbn.
  apply NoDup_filter, NoDup_listdir.
Qed.

(** *** What the scan does *)

(** The events of the scan: besides the first line, a file is opened,
    and a read error printed, only for a regular file that is not
    hidden. *)
Definition scan_event (folder : gmap string entry) (e : event) : Prop :=
  match e with
  | Print Scanning => True
  | ReadFile name =>
      exists x, folder !! name = Some x /\ is_file x = true
                /\ hidden name = false
  | Print (ErrorReading name) =>
      exists x, folder !! name = Some x /\ is_file x = true
                /\ hidden name = false /\ content x = None
  | _ => False
  end.

Lemma scan_entry_events folder acc name :
  Forall (scan_event folder) acc.2 ->
  Forall (scan_event folder) (scan_entry folder acc name).2.
Proof.
  intros Hacc. unfold scan_entry, calculate_file_hash.
  destruct (folder !! name) as [e|] eqn:He; [|done].
  destruct (is_file e) eqn:Hf; cbn [andb]; [|done].
  destruct (hidden name) eqn:Hh; cbn [negb]; [done|].
  destruct (content e) as [bytes|] eqn:Hc; cbn [fst snd];
    apply Forall_app; (split; [done|]); repeat constructor; cbn; eauto.
Qed.

Lemma scan_events folder : Forall (scan_event folder) (scan folder).2.
Proof.
  unfold scan.
  assert (Hstart : Forall (scan_event folder)
                     (([], [Print Scanning]) : file_hashes * list event).2)
    by (by repeat constructor).
  revert Hstart. generalize (([], [Print Scanning]) : file_hashes * list event).
  induction (listdir folder) as [|n names IH]; intros acc Hacc; [done|].
  cbn [fold_left]. apply IH. by apply scan_entry_events.
Qed.

Lemma scan_entry_out_grows folder acc name (e : event) :
  e ∈ acc.2 -> e ∈ (scan_entry folder acc name).2.
Proof.
  intros He. unfold scan_entry.
  repeat (case_match; try done); cbn; apply elem_of_app; by left.
Qed.

Lemma scan_fold_out_grows folder names acc (e : event) :
  e ∈ acc.2 -> e ∈ (fold_left (scan_entry folder) names acc).2.
Proof.
  revert acc. induction names as [|n names IH]; intros acc He; [done|].
  cbn [fold_left]. by apply IH, scan_entry_out_grows.
Qed.

(** A read error is printed for every regular file, not hidden, whose
    bytes cannot be read. *)
Lemma scan_reports_read_error folder name x :
  folder !! name = Some x -> is_file x = true -> hidden name = false ->
  content x = None ->
  Print (ErrorReading name) ∈ (scan folder).2.
Proof.
  intros Hx Hf Hh Hc. unfold scan.
  assert (Hin : name ∈ listdir folder) by (apply elem_of_listdir; eauto).
  revert Hin. generalize (([], [Print Scanning]) : file_hashes * list event).
  induction (listdir folder) as [|n names IH]; intros acc Hin;
    [by apply elem_of_nil in Hin|].
  cbn [fold_left]. apply elem_of_cons in Hin as [<-|Hin]; [|by apply IH].
  apply scan_fold_out_grows. unfold scan_entry, calculate_file_hash.
  rewrite Hx, Hf, Hh, Hc. cbn. rewrite elem_of_app. right.
  right. by left.
Qed.

(** *** Which file is kept *)

Lemma newest_first_perm files : newest_first files ≡ₚ files.
Proof. apply stable_sort_perm. Qed.

Lemma resolve_newest files :
  files ≠ [] ->
  exists mtime rest,
    newest_first files = ((resolve files).1, mtime) :: rest
    /\ (resolve files).2 = rest.*1
    /\ ((resolve files).1, mtime) ∈ files
    /\ forall item, item ∈ files -> (item.2 <= mtime)%Q.
Proof.
  intros Hne. unfold resolve.
  destruct (newest_first files) as [|[keep mtime] rest] eqn:E.
  { pose proof (newest_first_perm files) as Hp. rewrite E in Hp.
    apply Permutation_nil_l in Hp. congruence. }
  exists mtime, rest. cbn [hd tl fst snd].
  destruct (stable_sort_head (λ a b : string * Q, Qle_bool b.2 a.2))
    with (l := files) (x := (keep, mtime)) (rest := rest) as [Hin Hmax];
    [| |exact E|].
  - intros a b. rewrite !Qle_bool_iff. destruct (Qlt_le_dec a.2 b.2).
    + right. by apply Qlt_le_weak.
    + by left.
  - intros a b c. rewrite !Qle_bool_iff. intros ? ?. by eapply Qle_trans.
  - repeat split; try done. intros item Hitem.
    apply Qle_bool_iff. by apply (Hmax item).
Qed.

Lemma resolve_others files : (resolve files).2 ⊆ files.*1.
Proof.
  intros name Hname. rewrite <- (newest_first_perm files). unfold resolve in Hname.
  cbn in Hname. destruct (newest_first files) as [|first rest]; [done|].
  rewrite fmap_cons. by right.
Qed.

Lemma resolve_keep_not_deleted files :
  files ≠ [] -> NoDup files.*1 -> (resolve files).1 ∉ (resolve files).2.
Proof.
  intros Hne Hnd. destruct (resolve_newest files Hne) as (t & rest & E & -> & _).
  rewrite <- (newest_first_perm files), E, fmap_cons in Hnd.
  by apply NoDup_cons in Hnd as [? _].
Qed.

(** *** What the deletion phase does *)

(** The files selected for deletion, over all groups. *)
Definition deletion_set (hashes : file_hashes) : list string :=
  hashes ≫= λ group,
    if decide (1 < length group.2) then (resolve group.2).2 else [].

(** The events of the deletion phase: only files of [selected] are
    removed or reported. *)
Definition deletion_event (selected : list string) (e : event) : Prop :=
  match e with
  | Print (DuplicateGroup _ _) => True
  | Remove name | Print (DeletedDuplicate name) | Print (ErrorDeleting name) =>
      name ∈ selected
  | _ => False
  end.

Lemma deletion_event_mono selected selected' e :
  selected ⊆ selected' ->
  deletion_event selected e -> deletion_event selected' e.
Proof.
  intros Hsub. destruct e as [[]| | | | |]; cbn; try done; apply Hsub.
Qed.

(** The state after some steps of the deletion phase, which started in
    [st0]. *)
Definition deletes_within (selected : list string) (st0 st : state) : Prop :=
  (exists events, out st = out st0 ++ events
                  /\ Forall (deletion_event selected) events)
  /\ forall name, name ∉ selected -> fs st !! name = fs st0 !! name.

Lemma deletes_within_refl selected st : deletes_within selected st st.
Proof. split; [|done]. exists []. by rewrite app_nil_r. Qed.

Lemma deletes_within_trans selected st0 st1 st2 :
  deletes_within selected st0 st1 -> deletes_within selected st1 st2 ->
  deletes_within selected st0 st2.
Proof.
  intros [(e1 & H1 & F1) K1] [(e2 & H2 & F2) K2]. split.
  - exists (e1 ++ e2). split; [by rewrite H2, H1, (assoc_L (++))|].
    by apply Forall_app.
  - intros name Hname. by rewrite K2, K1.
Qed.

Lemma delete_file_within selected st name :
  name ∈ selected -> deletes_within selected st (delete_file st name).
Proof.
  intros Hin. unfold delete_file.
  destruct (fs st !! name) as [e|]; [destruct (removable e)|]; split; cbn.
  - eexists. split; [done|]. by repeat constructor.
  - intros n Hn. apply lookup_delete_ne. by intros <-.
  - eexists. split; [done|]. by repeat constructor.
  - done.
  - eexists. split; [done|]. by repeat constructor.
  - done.
Qed.

Lemma delete_files_within selected to_delete st :
  to_delete ⊆ selected ->
  deletes_within selected st (fold_left delete_file to_delete st).
Proof.
  revert st. induction to_delete as [|n ns IH]; intros st Hsub; cbn [fold_left].
  - apply deletes_within_refl.
  - eapply deletes_within_trans.
    + apply delete_file_within. apply Hsub. by left.
    + apply IH. intros x Hx. apply Hsub. by right.
Qed.

Lemma process_group_within selected st group :
  (if decide (1 < length group.2) then (resolve group.2).2 else []) ⊆ selected ->
  deletes_within selected st (process_group st group).
Proof.
  destruct group as [h files]. cbn [fst snd]. unfold process_group.
  destruct (decide (1 < length files)); [|intros; apply deletes_within_refl].
  intros Hsub. destruct (resolve files) as [keep to_delete] eqn:E.
  cbn [snd] in Hsub. eapply deletes_within_trans; [|by apply delete_files_within].
  split; [|done]. cbn. eexists. split; [done|]. by repeat constructor.
Qed.

Lemma process_groups_within hashes st :
  deletes_within (deletion_set hashes) st (fold_left process_group hashes st).
Proof.
  assert (Hgen : forall selected groups st,
            (groups ≫= λ group,
               if decide (1 < length group.2) then (resolve group.2).2 else [])
              ⊆ selected ->
            deletes_within selected st (fold_left process_group groups st)).
  { intros selected groups. induction groups as [|g groups IH]; intros st0 Hsub.
    - apply deletes_within_refl.
    - cbn [fold_left]. eapply deletes_within_trans.
      + apply process_group_within. intros x Hx. apply Hsub.
        rewrite bind_cons. apply elem_of_app. by left.
      + apply IH. intros x Hx. apply Hsub.
        rewrite bind_cons. apply elem_of_app. by right. }
  by apply Hgen.
Qed.

Lemma in_group_grouped hashes h item :
  in_group hashes h item -> item.1 ∈ grouped hashes.
Proof.
  intros Hin. unfold grouped. apply list_elem_of_fmap. exists item.
  split; [done|]. apply list_elem_of_fmap. by exists (h, item).
Qed.

Lemma deletion_set_grouped hashes : deletion_set hashes ⊆ grouped hashes.
Proof.
  intros name Hname. unfold deletion_set in Hname.
  apply list_elem_of_bind in Hname as ([h files] & Hname & Hg).
  cbn [snd] in Hname.
  destruct (decide (1 < length files)); [|by apply elem_of_nil in Hname].
  apply resolve_others, list_elem_of_fmap in Hname as (item & -> & Hitem).
  apply (in_group_grouped _ h). apply in_group_iff. eauto.
Qed.

Lemma group_NoDup hashes h files :
  NoDup (grouped hashes) -> (h, files) ∈ hashes -> NoDup files.*1.
Proof.
  induction hashes as [|[k fs0] rest IH]; intros Hnd Hin;
    [by apply elem_of_nil in Hin|].
  rewrite grouped_cons in Hnd. apply NoDup_app in Hnd as (H0 & _ & Hr).
  apply elem_of_cons in Hin as [[= <- <-]|Hin]; auto.
Qed.

(** The file kept in a group is selected in no group. *)
Lemma keep_not_selected hashes h files :
  NoDup (grouped hashes) -> (h, files) ∈ hashes -> files ≠ [] ->
  (resolve files).1 ∉ deletion_set hashes.
Proof.
  intros Hnd Hin Hne.
  destruct (resolve_newest files Hne) as (t & _ & _ & _ & Hkeep & _).
  induction hashes as [|[k fs0] rest IH]; [by apply elem_of_nil in Hin|].
  rewrite grouped_cons in Hnd.
  apply NoDup_app in Hnd as (Hnd0 & Hdisj & Hndr).
  unfold deletion_set. cbn [mbind list_bind snd]. fold (deletion_set rest).
  rewrite elem_of_app. intros [Hsel|Hsel].
  - destruct (decide (1 < length fs0)); [|by apply elem_of_nil in Hsel].
    apply elem_of_cons in Hin as [[= <- <-]|Hin].
    + by apply (resolve_keep_not_deleted files).
    + apply resolve_others in Hsel. apply (Hdisj _ Hsel).
      apply (in_group_grouped _ h (_, t)). apply in_group_iff. eauto.
  - apply elem_of_cons in Hin as [[= <- <-]|Hin].
    + apply deletion_set_grouped in Hsel. apply (Hdisj (resolve files).1); [|done].
      apply list_elem_of_fmap. by exists ((resolve files).1, t).
    + by apply IH.
Qed.

(** The run on an existing folder, in two phases. *)
Definition final_state (folder : gmap string entry) : state :=
  fold_left process_group (scan folder).1 (State folder (scan folder).2 0 0).

Lemma deduplicate_folder_run folder :
  deduplicate_folder (Some folder)
  = (Some (fs (final_state folder)),
     out (final_state folder) ++ [Print (summary (final_state folder))]).
Proof. unfold deduplicate_folder, final_state. by destruct (scan folder). Qed.

(** The trace of a run is the scan, then the deletions, then the
    summary. *)
Lemma run_trace folder :
  exists deletions,
    (deduplicate_folder (Some folder)).2
    = (scan folder).2 ++ deletions ++ [Print (summary (final_state folder))]
    /\ Forall (deletion_event (deletion_set (scan folder).1)) deletions
    /\ forall name, name ∉ deletion_set (scan folder).1 ->
         fs (final_state folder) !! name = folder !! name.
Proof.
  rewrite deduplicate_folder_run. cbn [snd].
  destruct (process_groups_within (scan folder).1
              (State folder (scan folder).2 0 0)) as [(evs & Hout & Hevs) Hfs].
  exists evs. fold (final_state folder) in Hout, Hfs. cbn in Hout, Hfs.
  split; [by rewrite Hout, (assoc_L (++))|done].
Qed.

(** A file that no group selects is not removed and is still in the
    folder after the run. *)
Lemma not_selected_survives folder name :
  name ∉ deletion_set (scan folder).1 ->
  (Remove name ∉ (deduplicate_folder (Some folder)).2)
  /\ (deduplicate_folder (Some folder)).1
     = Some (fs (final_state folder))
  /\ fs (final_state folder) !! name = folder !! name.
Proof.
  intros Hname. destruct (run_trace folder) as (evs & Htrace & Hevs & Hfs).
  split; [|split; [by rewrite deduplicate_folder_run|by apply Hfs]].
  rewrite Htrace, !elem_of_app. intros [Hin|[Hin|Hin]].
  - pose proof (scan_events folder) as Hscan.
    by eapply Forall_forall in Hscan; [|exact Hin].
  - by eapply Forall_forall in Hevs; [|exact Hin].
  - by apply list_elem_of_singleton in Hin.
Qed.

Lemma grouped_in_group hashes name :
  name ∈ grouped hashes ->
  exists h mtime, in_group hashes h (name, mtime).
Proof.
  unfold grouped, in_group. intros Hin.
  apply list_elem_of_fmap in Hin as ([n t] & -> & Hin).
  apply list_elem_of_fmap in Hin as ([h item] & Heq & Hin).
  cbn in Heq. subst item. by exists h, t.
Qed.

(** A file outside the groups is left alone. *)
Lemma not_grouped_survives folder name :
  name ∉ grouped (scan folder).1 ->
  (Remove name ∉ (deduplicate_folder (Some folder)).2)
  /\ (deduplicate_folder (Some folder)).1
     = Some (fs (final_state folder))
  /\ fs (final_state folder) !! name = folder !! name.
Proof.
  intros Hname. apply not_selected_survives.
  intros Hsel. by apply Hname, deletion_set_grouped.
Qed.

(** C1: in a group of two files or more the file that is kept has the
    greatest modification time of the group, the files selected for
    deletion are other files of the group, and the kept file is not
    among them; the run does not remove it and it is in the folder when
    the run ends. *)
Theorem dedup_keeps_newest (folder : gmap string entry) (file_hash : string)
    (files : list (string * Q)) :
  (file_hash, files) ∈ (scan folder).1 ->
  1 < length files ->
  let keep_file := (resolve files).1 in
  let to_delete := (resolve files).2 in
  (exists mtime, (keep_file, mtime) ∈ files
                 /\ forall item, item ∈ files -> (item.2 <= mtime)%Q)
  /\ to_delete ⊆ files.*1
  /\ (keep_file ∉ to_delete)
  /\ (Remove keep_file ∉ (deduplicate_folder (Some folder)).2)
  /\ exists after,
       (deduplicate_folder (Some folder)).1 = Some after
       /\ is_Some (folder !! keep_file)
       /\ after !! keep_file = folder !! keep_file.
Proof.
  intros Hin Hlen keep_file to_delete.
  assert (Hne : files ≠ []) by (intros ->; cbn in Hlen; lia).
  destruct (resolve_newest files Hne) as (t & rest & _ & _ & Hkeep & Hmax).
  assert (Hnd : NoDup files.*1)
    by (eapply group_NoDup; [apply scan_grouped_NoDup|exact Hin]).
  destruct (not_selected_survives folder keep_file) as (Hrm & Hrun & Hfs).
  { by apply (keep_not_selected _ file_hash files), Hne;
      [apply scan_grouped_NoDup|]. }
  split; [by exists t|]. split; [apply resolve_others|].
  split; [by apply resolve_keep_not_deleted|]. split; [done|].
  exists (fs (final_state folder)). split; [done|]. split; [|done].
  assert (Hg : in_group (scan folder).1 file_hash (keep_file, t))
    by (apply in_group_iff; eauto).
  apply scan_in_group in Hg as (e & _ & He & _). eauto.
Qed.

(** C7, as the code has it: the hasher returns [None] for a file whose
    bytes cannot be read, after printing the error.  The file joins no
    group, is not removed and is still in the folder when the run ends,
    and every file that can be read is in the group of its digest.  The
    line printed last gives the number of files removed and the space
    freed, and nothing else. *)
Theorem unreadable_file_is_skipped (folder : gmap string entry)
    (name : string) (e : entry) :
  folder !! name = Some e ->
  is_file e = true ->
  hidden name = false ->
  content e = None ->
  calculate_file_hash name e
    = (None, [ReadFile name; Print (ErrorReading name)])
  /\ (forall h files, (h, files) ∈ (scan folder).1 -> name ∉ files.*1)
  /\ (forall name' e' bytes,
        folder !! name' = Some e' -> is_file e' = true ->
        hidden name' = false -> content e' = Some bytes ->
        exists files, (md5 bytes, files) ∈ (scan folder).1
                      /\ (name', st_mtime e') ∈ files)
  /\ Print (ErrorReading name) ∈ (deduplicate_folder (Some folder)).2
  /\ (Remove name ∉ (deduplicate_folder (Some folder)).2)
  /\ (exists after, (deduplicate_folder (Some folder)).1 = Some after
                    /\ after !! name = Some e)
  /\ exists total_removed freed,
       last (deduplicate_folder (Some folder)).2
       = Some (Print (DedupComplete total_removed freed)).
Proof.
  intros He Hf Hh Hc.
  assert (Hout : name ∉ grouped (scan folder).1).
  { intros (h & t & Hg)%grouped_in_group.
    apply scan_in_group in Hg as (e' & bytes & He' & _ & _ & Hc' & _).
    congruence. }
  destruct (not_grouped_survives folder name Hout) as (Hrm & Hrun & Hfs).
  split; [unfold calculate_file_hash; by rewrite Hc|].
  split.
  { intros h files Hin Hname. apply Hout.
    apply list_elem_of_fmap in Hname as ([n t] & -> & Hitem).
    apply (in_group_grouped _ h (n, t)). apply in_group_iff. eauto. }
  split.
  { intros name' e' bytes He' Hf' Hh' Hc'. apply in_group_iff, scan_in_group.
    by exists e', bytes. }
  split.
  { destruct (run_trace folder) as (evs & -> & _). apply elem_of_app. left.
    by eapply scan_reports_read_error. }
  split; [done|]. split; [exists (fs (final_state folder)); by rewrite Hfs|].
  rewrite deduplicate_folder_run. cbn [snd]. rewrite last_snoc.
  unfold summary. eauto.
Qed.

(** In [deduplicate_folder] a file whose name starts with a dot is
    never opened, is in no group, is not removed and is in the folder
    when the run ends. *)
Lemma dedup_ignores_hidden (folder : gmap string entry) (name : string) :
  hidden name = true ->
  (ReadFile name ∉ (deduplicate_folder (Some folder)).2)
  /\ (forall h files, (h, files) ∈ (scan folder).1 -> name ∉ files.*1)
  /\ (Remove name ∉ (deduplicate_folder (Some folder)).2)
  /\ exists after, (deduplicate_folder (Some folder)).1 = Some after
                   /\ after !! name = folder !! name.
Proof.
  intros Hh.
  assert (Hout : name ∉ grouped (scan folder).1).
  { intros (h & t & Hg)%grouped_in_group.
    apply scan_in_group in Hg as (e' & bytes & _ & _ & Hh' & _). congruence. }
  destruct (not_grouped_survives folder name Hout) as (Hrm & Hrun & Hfs).
  split.
  { destruct (run_trace folder) as (evs & -> & Hevs & _).
    rewrite !elem_of_app. intros [Hin|[Hin|Hin]].
    - pose proof (scan_events folder) as Hscan.
      eapply Forall_forall in Hscan; [|exact Hin].
      destruct Hscan as (x & _ & _ & Hh'). congruence.
    - by eapply Forall_forall in Hevs; [|exact Hin].
    - by apply list_elem_of_singleton in Hin. }
  split.
  { intros h files Hin Hname. apply Hout.
    apply list_elem_of_fmap in Hname as ([n t] & -> & Hitem).
    apply (in_group_grouped _ h (n, t)). apply in_group_iff. eauto. }
  split; [done|]. by exists (fs (final_state folder)).
Qed.

(** *** More on what a run keeps and removes *)


(** The names of the files that a trace says were removed. *)
Fixpoint removed (trace : list event) : list string :=
  match trace with
  | [] => []
  | Remove name :: rest => name :: removed rest
  | _ :: rest => removed rest
  end.

Lemma removed_app trace1 trace2 :
  removed (trace1 ++ trace2) = removed trace1 ++ removed trace2.
Proof.
  induction trace1 as [|e trace1 IH]; [done|].
  destruct e; cbn; by rewrite ?IH.
Qed.

Lemma scan_removes_nothing folder : removed (scan folder).2 = [].
Proof.
  pose proof (scan_events folder) as Hev.
  induction Hev as [|e trace He _ IH]; [done|].
  destruct e as [[]| | | | |]; cbn in *; done.
Qed.

Definition size_of (folder : gmap string entry) (name : string) : Z :=
  from_option st_size 0%Z (folder !! name).

(** The counters and the folder agree with the removals of the
    trace. *)
Definition accounted (folder : gmap string entry) (st : state) : Prop :=
  (forall name, fs st !! name
     = if decide (name ∈ removed (out st)) then None else folder !! name)
  /\ total_removed st = length (removed (out st))
  /\ total_space st = foldr (λ name sum, (size_of folder name + sum)%Z) 0%Z
                        (removed (out st)).

Lemma sum_sizes_snoc folder names name :
  foldr (λ n sum, (size_of folder n + sum)%Z) 0%Z (names ++ [name])
  = (foldr (λ n sum, (size_of folder n + sum)%Z) 0%Z names
     + size_of folder name)%Z.
Proof. induction names as [|n names IH]; cbn; [lia|]. rewrite IH. lia. Qed.

Lemma delete_file_accounted folder st name :
  accounted folder st -> accounted folder (delete_file st name).
Proof.
  intros (Hfs & Hcount & Hspace). unfold delete_file.
  destruct (fs st !! name) as [e|] eqn:He; [destruct (removable e)|].
  - pose proof (Hfs name) as Hname. rewrite He in Hname.
    case_decide as Hin; [done|].
    unfold accounted. cbn [fs out total_removed total_space].
    rewrite removed_app. cbn [removed]. split; [|split].
    + intros k. destruct (decide (k = name)) as [->|Hk].
      * rewrite lookup_delete_eq, decide_True; [done|].
        apply elem_of_app. right. by left.
      * rewrite lookup_delete_ne, Hfs by done.
        repeat case_decide; try done;
          rewrite elem_of_app, list_elem_of_singleton in *; tauto.
    + rewrite length_app. cbn. lia.
    + rewrite sum_sizes_snoc, Hspace. unfold size_of at 3.
      by rewrite <- Hname.
  - unfold accounted. cbn [fs out total_removed total_space].
    rewrite removed_app. cbn [removed]. by rewrite app_nil_r.
  - unfold accounted. cbn [fs out total_removed total_space].
    rewrite removed_app. cbn [removed]. by rewrite app_nil_r.
Qed.

Lemma process_group_accounted folder st group :
  accounted folder st -> accounted folder (process_group st group).
Proof.
  intros Hst. destruct group as [h files]. unfold process_group.
  destruct (decide (1 < length files)); [|done].
  destruct (resolve files) as [keep to_delete].
  assert (Hstart : accounted folder
            (State (fs st) (out st ++ [Print (DuplicateGroup h keep)])
                   (total_removed st) (total_space st))).
  { unfold accounted in *. cbn [fs out total_removed total_space].
    rewrite removed_app. cbn [removed]. by rewrite app_nil_r. }
  revert Hstart. generalize (State (fs st)
    (out st ++ [Print (DuplicateGroup h keep)])
    (total_removed st) (total_space st)).
  induction to_delete as [|n ns IH]; intros st0 Hst0; [done|].
  cbn [fold_left]. by apply IH, delete_file_accounted.
Qed.

Lemma final_state_accounted folder : accounted folder (final_state folder).
Proof.
  unfold final_state.
  assert (Hstart : accounted folder (State folder (scan folder).2 0 0)).
  { unfold accounted. cbn [fs out total_removed total_space].
    rewrite scan_removes_nothing. by repeat split. }
  revert Hstart. generalize (State folder (scan folder).2 0 0).
  induction (scan folder).1 as [|g groups IH]; intros st Hst; [done|].
  cbn [fold_left]. by apply IH, process_group_accounted.
Qed.

Lemma removed_run folder :
  removed (deduplicate_folder (Some folder)).2
  = removed (out (final_state folder)).
Proof.
  rewrite deduplicate_folder_run. cbn [snd]. rewrite removed_app.
  cbn [removed]. by rewrite app_nil_r.
Qed.

(** X9: the folder after the run is the folder before it without the files
    that the trace shows as removed. *)
Theorem dedup_folder_after_run (folder : gmap string entry) (name : string) :
  exists after,
    (deduplicate_folder (Some folder)).1 = Some after
    /\ after !! name
       = if decide (name ∈ removed (deduplicate_folder (Some folder)).2)
         then None else folder !! name.
Proof.
  exists (fs (final_state folder)). split; [by rewrite deduplicate_folder_run|].
  rewrite removed_run. by destruct (final_state_accounted folder) as [Hfs _].
Qed.

(** X10: the last line of the run gives the number of files the run removed
    and the sum of their sizes. *)
Theorem dedup_summary_counts_removals (folder : gmap string entry) :
  last (deduplicate_folder (Some folder)).2
  = Some (Print (DedupComplete
       (length (removed (deduplicate_folder (Some folder)).2))
       (FormatSize.format_size
          (foldr (λ name sum, (size_of folder name + sum)%Z) 0%Z
             (removed (deduplicate_folder (Some folder)).2))))).
Proof.
  rewrite removed_run.
  destruct (final_state_accounted folder) as (_ & Hcount & Hspace).
  rewrite deduplicate_folder_run. cbn [snd]. rewrite last_snoc.
  unfold summary. by rewrite Hcount, Hspace.
Qed.

(** *** Groups and digests *)

Lemma setdefault_append_keys h item hashes :
  (setdefault_append h item hashes).*1
  = if decide (h ∈ hashes.*1) then hashes.*1 else hashes.*1 ++ [h].
Proof.
  induction hashes as [|[k files] rest IH]; cbn [setdefault_append].
  - rewrite decide_False; [done|]. apply not_elem_of_nil.
  - destruct (String.eqb_spec k h) as [->|Hk]; cbn [fmap list_fmap fst].
    + rewrite decide_True; [done|]. by left.
    + cbn in IH. rewrite IH. destruct (decide (h ∈ rest.*1)) as [Hin|Hin].
      * rewrite decide_True; [done|]. by right.
      * rewrite decide_False; [done|].
        intros [?|?]%elem_of_cons; congruence.
Qed.

Lemma setdefault_append_keys_NoDup h item hashes :
  NoDup hashes.*1 -> NoDup (setdefault_append h item hashes).*1.
Proof.
  intros Hnd. rewrite setdefault_append_keys. case_decide as Hin; [done|].
  apply NoDup_app. repeat split; [done| |apply NoDup_singleton].
  intros x Hx ->%list_elem_of_singleton. done.
Qed.

(** A digest is the key of one group only. *)
Lemma scan_keys_NoDup folder : NoDup (scan folder).1.*1.
Proof.
  unfold scan.
  assert (Hstart : NoDup (([], [Print Scanning]) : file_hashes * list event).1.*1)
    by constructor.
  revert Hstart. generalize (([], [Print Scanning]) : file_hashes * list event).
  induction (listdir folder) as [|n names IH]; intros acc Hacc; [done|].
  cbn [fold_left]. apply IH. unfold scan_entry.
  repeat (case_match; try done). cbn [fst].
  by apply setdefault_append_keys_NoDup.
Qed.

Lemma NoDup_keys_agree (hashes : file_hashes) h files1 files2 :
  NoDup hashes.*1 -> (h, files1) ∈ hashes -> (h, files2) ∈ hashes ->
  files1 = files2.
Proof.
  induction hashes as [|[k files] rest IH]; intros Hnd H1 H2;
    [by apply elem_of_nil in H1|].
  cbn in Hnd. apply NoDup_cons in Hnd as [Hk Hnd].
  apply elem_of_cons in H1 as [E1|H1]; apply elem_of_cons in H2 as [E2|H2].
  - congruence.
  - injection E1 as -> ->. exfalso. apply Hk.
    apply list_elem_of_fmap. by exists (k, files2).
  - injection E2 as -> ->. exfalso. apply Hk.
    apply list_elem_of_fmap. by exists (k, files1).
  - by apply IH.
Qed.

(** X11: two files that were read are in the same group exactly when their
    digests are equal. *)
Theorem same_digest_same_group (folder : gmap string entry)
    (name1 name2 h1 h2 : string) (mtime1 mtime2 : Q) :
  hashed folder name1 h1 mtime1 ->
  hashed folder name2 h2 mtime2 ->
  h1 = h2 <->
  exists key files,
    (key, files) ∈ (scan folder).1
    /\ (name1, mtime1) ∈ files /\ (name2, mtime2) ∈ files.
Proof.
  intros Hh1 Hh2. split.
  - intros <-. pose proof Hh1 as Hg1. pose proof Hh2 as Hg2.
    apply scan_in_group, in_group_iff in Hg1 as (files1 & Hf1 & Hi1).
    apply scan_in_group, in_group_iff in Hg2 as (files2 & Hf2 & Hi2).
    assert (files1 = files2) as <-
      by (eapply NoDup_keys_agree; [apply scan_keys_NoDup|done|done]).
    by exists h1, files1.
  - intros (key & files & Hfiles & Hi1 & Hi2).
    assert (Hk1 : hashed folder name1 key mtime1)
      by (apply scan_in_group, in_group_iff; eauto).
    assert (Hk2 : hashed folder name2 key mtime2)
      by (apply scan_in_group, in_group_iff; eauto).
    destruct Hh1 as (e1 & b1 & He1 & _ & _ & Hc1 & -> & _).
    destruct Hh2 as (e2 & b2 & He2 & _ & _ & Hc2 & -> & _).
    destruct Hk1 as (e1' & b1' & He1' & _ & _ & Hc1' & -> & _).
    destruct Hk2 as (e2' & b2' & He2' & _ & _ & Hc2' & Hkey & _).
    congruence.
Qed.

(** X12: an entry that is no regular file, a subfolder say, is never opened,
    is in no group, is not removed and stays as it is. *)
Theorem dedup_ignores_subfolders (folder : gmap string entry)
    (name : string) (e : entry) :
  folder !! name = Some e ->
  is_file e = false ->
  (ReadFile name ∉ (deduplicate_folder (Some folder)).2)
  /\ (forall h files, (h, files) ∈ (scan folder).1 -> name ∉ files.*1)
  /\ (Remove name ∉ (deduplicate_folder (Some folder)).2)
  /\ exists after, (deduplicate_folder (Some folder)).1 = Some after
                   /\ after !! name = Some e.
Proof.
  intros He Hf.
  assert (Hout : name ∉ grouped (scan folder).1).
  { intros (h & t & Hg)%grouped_in_group.
    apply scan_in_group in Hg as (e' & bytes & He' & Hf' & _). congruence. }
  destruct (not_grouped_survives folder name Hout) as (Hrm & Hrun & Hfs).
  split.
  { destruct (run_trace folder) as (evs & -> & Hevs & _).
    rewrite !elem_of_app. intros [Hin|[Hin|Hin]].
    - pose proof (scan_events folder) as Hscan.
      eapply Forall_forall in Hscan; [|exact Hin].
      destruct Hscan as (x & Hx & Hf' & _). congruence.
    - by eapply Forall_forall in Hevs; [|exact Hin].
    - by apply list_elem_of_singleton in Hin. }
  split.
  { intros h files Hin Hname. apply Hout.
    apply list_elem_of_fmap in Hname as ([n t] & -> & Hitem).
    apply (in_group_grouped _ h (n, t)). apply in_group_iff. eauto. }
  split; [done|]. exists (fs (final_state folder)). by rewrite Hfs.
Qed.

Lemma process_groups_idle hashes st :
  Forall (λ group, ¬ 1 < length group.2) hashes ->
  fold_left process_group hashes st = st.
Proof.
  induction 1 as [|[h files] rest Hg _ IH]; [done|].
  cbn [fold_left]. unfold process_group at 2. cbn [snd] in Hg.
  by rewrite decide_False.
Qed.

(** X13: a folder in which no two files that are read have the same digest
    is left as it is: nothing is removed and the summary counts no
    file. *)
Theorem dedup_without_duplicates (folder : gmap string entry) :
  (forall name1 name2 h mtime1 mtime2,
     hashed folder name1 h mtime1 -> hashed folder name2 h mtime2 ->
     name1 = name2) ->
  deduplicate_folder (Some folder)
  = (Some folder, (scan folder).2 ++ [Print (DedupComplete 0 "0 B")]).
Proof.
  intros Hdistinct. rewrite deduplicate_folder_run. unfold final_state.
  rewrite process_groups_idle; [done|].
  apply Forall_forall. intros [h files] Hin Hlen. cbn [snd] in Hlen.
  pose proof (group_NoDup _ _ _ (scan_grouped_NoDup folder) Hin) as Hnd.
  destruct files as [|[n1 t1] [|[n2 t2] files]]; cbn in Hlen; try lia.
  assert (H1 : hashed folder n1 h t1).
  { apply scan_in_group, in_group_iff. exists ((n1, t1) :: (n2, t2) :: files).
    split; [done|]. by left. }
  assert (H2 : hashed folder n2 h t2).
  { apply scan_in_group, in_group_iff. exists ((n1, t1) :: (n2, t2) :: files).
    split; [done|]. right. by left. }
  pose proof (Hdistinct _ _ _ _ _ H1 H2) as ->.
  cbn in Hnd. apply NoDup_cons in Hnd as [Hnd _]. apply Hnd. by left.
Qed.

End Folder.
End Dedup.

(** ** Name normalization ([duplicate_scanner.py], lines 51-65) *)

Module Normalize.
Import Py.

Local Open Scope char_scope.

(** [s.split(sep)]. *)
Fixpoint split_on (sep : ascii) (s : list ascii) : list (list ascii) :=
  match s with
  | [] => [[]]
  | c :: s' =>
      if Ascii.eqb c sep then [] :: split_on sep s'
      else match split_on sep s' with
           | part :: parts => (c :: part) :: parts
           | [] => [[c]]
           end
  end.

(** [Path(filename).name]: the last component of the path; empty
    components and the component [.] do not count. *)
Definition path_name (filename : list ascii) : list ascii :=
  List.last
    (filter (λ part, part ≠ [] /\ part ≠ ["."]) (split_on "/" filename)) [].

(** [s.rfind(c)]. *)
Fixpoint rfind (c : ascii) (s : list ascii) : option nat :=
  match s with
  | [] => None
  | x :: s' =>
      match rfind c s' with
      | Some i => Some (S i)
      | None => if Ascii.eqb x c then Some O else None
      end
  end.

(** [Path(filename).stem], as pathlib has it up to Python 3.13: the
    name without its last suffix; a dot that starts or ends the name
    starts no suffix. *)
Definition stem (filename : list ascii) : list ascii :=
  let name := path_name filename in
  match rfind "." name with
  | Some i =>
      if ((0 <? i) && (i <? length name - 1))%nat then take i name else name
  | None => name
  end.

(** A greedy run of characters of one class, and what follows it. *)
Fixpoint span (p : ascii -> bool) (s : list ascii)
    : list ascii * list ascii :=
  match s with
  | c :: s' =>
      if p c then let '(run, rest) := span p s' in (c :: run, rest)
      else ([], s)
  | [] => ([], [])
  end.

(** [$] without [re.MULTILINE]: the end of the string, or the place in
    front of a newline that ends it. *)
Definition at_end (s : list ascii) : bool :=
  match s with
  | [] => true
  | [c] => Ascii.eqb c "010"
  | _ => false
  end.

(** A literal in lower case under [re.IGNORECASE]; the result is what
    follows the match. *)
Fixpoint literal (lit s : list ascii) : option (list ascii) :=
  match lit, s with
  | [], _ => Some s
  | l :: lit', c :: s' =>
      if Ascii.eqb (lower_char c) l then literal lit' s' else None
  | _ :: _, [] => None
  end.

(** A match of [\s+copy\s*\d*$] at the start of [s], as its length.
    Every repetition is followed by a character outside its class, or
    by [$]: taking less than the greedy run never helps, and the first
    match the engine finds is the greedy one. *)
Definition match_copy (s : list ascii) : option nat :=
  let '(blanks, r1) := span is_space s in
  if bool_decide (blanks = []) then None
  else match literal ["c"; "o"; "p"; "y"] r1 with
       | None => None
       | Some r2 =>
           let '(_, r3) := span is_space r2 in
           let '(_, r4) := span is_digit r3 in
           if at_end r4 then Some (length s - length r4)%nat else None
       end.

(** A match of [\s+\(\d+\)$] at the start of [s], as its length. *)
Definition match_paren (s : list ascii) : option nat :=
  let '(blanks, r1) := span is_space s in
  if bool_decide (blanks = []) then None
  else match r1 with
       | "(" :: r2 =>
           let '(digits, r3) := span is_digit r2 in
           if bool_decide (digits = []) then None
           else match r3 with
                | ")" :: r4 =>
                    if at_end r4 then Some (length s - length r4)%nat
                    else None
                | _ => None
                end
       | _ => None
       end.

(** [re.sub(pattern, '', s)]: from left to right, every match is left
    out and the search goes on behind it.  [skip] counts the characters
    of the current match that are still to be left out. *)
Fixpoint re_sub (matcher : list ascii -> option nat) (skip : nat)
    (s : list ascii) : list ascii :=
  match s with
  | [] => []
  | c :: s' =>
      match skip with
      | S k => re_sub matcher k s'
      | O =>
          match matcher s with
          | Some (S n) => re_sub matcher n s'
          | _ => c :: re_sub matcher 0 s'
          end
      end
  end.

Definition normalize (filename : list ascii) : list ascii :=
  strip (re_sub match_paren 0 (re_sub match_copy 0 (stem filename))).

Definition normalize_filename (filename : string) : string :=
  string_of_list_ascii (normalize (list_ascii_of_string filename)).

(** *** Facts about single characters, by enumeration *)

Lemma ascii_forall (P : ascii -> bool) :
  forallb P (map ascii_of_nat (seq 0 256)) = true -> forall c, P c = true.
Proof.
  intros Hall c. rewrite forallb_forall in Hall. apply Hall.
  apply in_map_iff. exists (nat_of_ascii c).
  split; [apply ascii_nat_embedding|].
  apply in_seq. pose proof (nat_ascii_bounded c). lia.
Qed.

(** A character that [copy] matches when case is ignored. *)
Definition copy_letter (c : ascii) : bool :=
  existsb (Ascii.eqb (lower_char c)) ["c"; "o"; "p"; "y"].

(** Neither a blank nor a digit. *)
Definition solid (c : ascii) : bool := negb (is_space c) && negb (is_digit c).

(** The characters a match of the first, and of the second, pattern is
    made of. *)
Definition copy_char (c : ascii) : bool :=
  is_space c || is_digit c || copy_letter c.

Definition paren_char (c : ascii) : bool :=
  is_space c || is_digit c || Ascii.eqb c "(" || Ascii.eqb c ")".

Lemma space_not_digit c : is_space c = true -> is_digit c = false.
Proof.
  pose proof (ascii_forall (λ c, implb (is_space c) (negb (is_digit c)))
                ltac:(by vm_compute) c) as Hc.
  cbn beta in Hc. by destruct (is_space c), (is_digit c).
Qed.

Lemma space_not_copy_letter c : is_space c = true -> copy_letter c = false.
Proof.
  pose proof (ascii_forall (λ c, implb (is_space c) (negb (copy_letter c)))
                ltac:(by vm_compute) c) as Hc.
  cbn beta in Hc. by destruct (is_space c), (copy_letter c).
Qed.

Lemma space_not_paren c :
  is_space c = true -> Ascii.eqb c "(" = false /\ Ascii.eqb c ")" = false.
Proof.
  pose proof (ascii_forall
                (λ c, implb (is_space c)
                        (negb (Ascii.eqb c "(") && negb (Ascii.eqb c ")")))
                ltac:(by vm_compute) c) as Hc.
  cbn beta in Hc.
  by destruct (is_space c), (Ascii.eqb c "("), (Ascii.eqb c ")").
Qed.

Lemma copy_letter_solid c : copy_letter c = true -> solid c = true.
Proof.
  pose proof (ascii_forall (λ c, implb (copy_letter c) (solid c))
                ltac:(by vm_compute) c) as Hc.
  cbn beta in Hc. by destruct (copy_letter c), (solid c).
Qed.

Lemma copy_char_plain c :
  copy_char c = true -> c ≠ ")" /\ c ≠ "." /\ c ≠ "/".
Proof. intros Hc. repeat split; by intros ->. Qed.

Lemma paren_char_plain c : paren_char c = true -> c ≠ "." /\ c ≠ "/".
Proof. intros Hc. repeat split; by intros ->. Qed.

(** *** Greedy runs *)

Lemma span_spec p s :
  s = (span p s).1 ++ (span p s).2
  /\ Forall (λ c, p c = true) (span p s).1
  /\ forall c rest, (span p s).2 = c :: rest -> p c = false.
Proof.
  induction s as [|x s (IH1 & IH2 & IH3)]; cbn [span].
  - by repeat split.
  - destruct (p x) eqn:Hx.
    + destruct (span p s) as [run rest]. cbn in *.
      repeat split; [by f_equal|by constructor|done].
    + cbn. repeat split; [constructor|]. by intros c rest [= <- _].
Qed.

(** A run ends where the class ends: what is appended behind a
    character outside the class does not change it. *)
Lemma span_app_rest p u d :
  (span p u).2 ≠ [] -> span p (u ++ d) = ((span p u).1, (span p u).2 ++ d).
Proof.
  induction u as [|x u IH]; cbn [span app]; [done|].
  destruct (p x); [|done].
  destruct (span p u) as [run rest]. cbn. intros Hrest.
  by rewrite (IH Hrest).
Qed.

Lemma span_app_stop p u c d :
  p c = false ->
  span p (u ++ c :: d) = ((span p u).1, (span p u).2 ++ c :: d).
Proof.
  intros Hc. induction u as [|x u IH]; cbn [span app].
  - by rewrite Hc.
  - destruct (p x); [|done]. rewrite IH. by destruct (span p u).
Qed.

(** The last character of a string, when it is no blank, ends no run
    of blanks. *)
Definition ends_solid (u : list ascii) : Prop :=
  exists c, last u = Some c /\ is_space c = false.

Lemma ends_solid_span u : ends_solid u -> (span is_space u).2 ≠ [].
Proof.
  intros (c & Hlast & Hc). induction u as [|x u IH]; [done|].
  cbn [span]. destruct (is_space x) eqn:Hx; [|done].
  destruct u as [|y u].
  - cbn in Hlast. congruence.
  - rewrite last_cons_cons in Hlast. specialize (IH Hlast).
    by destruct (span is_space (y :: u)).
Qed.

Lemma ends_solid_drop u a :
  (a < length u)%nat -> ends_solid u -> ends_solid (drop a u).
Proof.
  intros Ha (c & Hlast & Hc). exists c. split; [|done].
  rewrite <- (take_drop a u) in Hlast. rewrite last_app in Hlast.
  destruct (last (drop a u)) eqn:E; [done|].
  apply last_None in E. apply (f_equal length) in E.
  rewrite length_drop in E. cbn in E. lia.
Qed.

(** *** The two patterns *)

Definition copy_word : list ascii := ["c"; "o"; "p"; "y"].

(** What [\s*\d*] leaves of [r]. *)
Definition copy_tail (r : list ascii) : list ascii :=
  (span is_digit (span is_space r).2).2.

Lemma match_copy_unfold s :
  match_copy s =
    if bool_decide ((span is_space s).1 = []) then None
    else match literal copy_word (span is_space s).2 with
         | None => None
         | Some r2 =>
             if at_end (copy_tail r2)
             then Some (length s - length (copy_tail r2))%nat else None
         end.
Proof.
  unfold match_copy, copy_tail, copy_word. destruct (span is_space s) as [b r1].
  cbn [fst snd]. case_bool_decide; [done|].
  destruct (literal _ r1) as [r2|]; [|done].
  destruct (span is_space r2) as [b2 r3]. cbn [snd].
  by destruct (span is_digit r3).
Qed.

Lemma match_paren_unfold s :
  match_paren s =
    if bool_decide ((span is_space s).1 = []) then None
    else match (span is_space s).2 with
         | "(" :: r2 =>
             if bool_decide ((span is_digit r2).1 = []) then None
             else match (span is_digit r2).2 with
                  | ")" :: r4 =>
                      if at_end r4 then Some (length s - length r4)%nat
                      else None
                  | _ => None
                  end
         | _ => None
         end.
Proof.
  unfold match_paren. destruct (span is_space s) as [b r1]. cbn [fst snd].
  case_bool_decide; [done|]. destruct r1 as [|x r2]; [done|].
  destruct (Ascii.eqb_spec x "(") as [->|Hx].
  - by destruct (span is_digit r2).
  - destruct x as [[] [] [] [] [] [] [] []]; done.
Qed.

Lemma at_end_blank r : at_end r = true -> Forall (λ c, is_space c = true) r.
Proof.
  destruct r as [|c [|? ?]]; cbn; try done.
  intros ->%Ascii.eqb_eq. by repeat constructor.
Qed.

Lemma copy_tail_chars r :
  at_end (copy_tail r) = true -> Forall (λ c, solid c = false) r.
Proof.
  intros Hend. unfold copy_tail in Hend.
  destruct (span_spec is_space r) as (Hr & Hblanks & _).
  destruct (span_spec is_digit (span is_space r).2) as (Hr3 & Hdigits & _).
  rewrite Hr, Hr3. repeat apply Forall_app_2.
  - eapply Forall_impl; [exact Hblanks|]. intros c Hc. unfold solid.
    by rewrite Hc.
  - eapply Forall_impl; [exact Hdigits|]. intros c Hc. unfold solid.
    rewrite Hc. apply andb_false_r.
  - eapply Forall_impl; [exact (at_end_blank _ Hend)|]. intros c Hc.
    unfold solid. by rewrite Hc.
Qed.

Lemma literal_spec lit s r :
  literal lit s = Some r ->
  exists taken, s = taken ++ r /\ length taken = length lit
                /\ Forall (λ c, lower_char c ∈ lit) taken.
Proof.
  revert s. induction lit as [|l lit IH]; intros s; cbn [literal].
  - intros [= <-]. by exists [].
  - destruct s as [|c s]; [done|].
    destruct (Ascii.eqb_spec (lower_char c) l) as [<-|]; [|done].
    intros (taken & -> & Hlen & Htaken)%IH. exists (c :: taken).
    repeat split; [by cbn; rewrite Hlen|].
    constructor; [by left|].
    eapply Forall_impl; [exact Htaken|]. intros x Hx. by right.
Qed.

Lemma literal_app lit u c d r :
  (forall l, l ∈ lit -> Ascii.eqb (lower_char c) l = false) ->
  literal lit (u ++ c :: d) = Some r ->
  exists u', literal lit u = Some u' /\ r = u' ++ c :: d.
Proof.
  intros Hc. revert u. induction lit as [|l lit IH]; intros u; cbn [literal].
  - intros [= <-]. by exists u.
  - destruct u as [|x u]; cbn [app].
    + rewrite Hc by (by left). done.
    + destruct (Ascii.eqb (lower_char x) l); [|done].
      apply IH. intros l' Hl'. apply Hc. by right.
Qed.

Lemma blank_not_copy_word c l :
  is_space c = true -> l ∈ copy_word -> Ascii.eqb (lower_char c) l = false.
Proof.
  intros Hc%space_not_copy_letter Hl. unfold copy_letter in Hc.
  destruct (Ascii.eqb (lower_char c) l) eqn:E; [|done].
  assert (existsb (Ascii.eqb (lower_char c)) copy_word = true);
    [|unfold copy_word in *; congruence].
  apply existsb_exists. exists l. split; [by apply list_elem_of_In|done].
Qed.

(** No match of the first pattern starts in front of [c :: d], a blank
    followed by something that has a solid character, when what stands
    in front ends with a character that is no blank. *)
Lemma match_copy_blocked u c d :
  ends_solid u -> is_space c = true ->
  (exists x, x ∈ d /\ solid x = true) ->
  match_copy (u ++ c :: d) = None.
Proof.
  intros Hu Hc (x & Hx & Hsolid). rewrite match_copy_unfold.
  rewrite (span_app_rest _ _ _ (ends_solid_span _ Hu)). cbn [fst snd].
  case_bool_decide; [done|].
  destruct (literal copy_word _) as [r2|] eqn:Hlit; [|done].
  apply literal_app in Hlit as (u' & _ & ->);
    [|intros; by apply blank_not_copy_word].
  destruct (at_end (copy_tail _)) eqn:Hend; [|done].
  apply copy_tail_chars in Hend.
  assert (Hin : x ∈ u' ++ c :: d) by (rewrite elem_of_app, elem_of_cons; auto).
  eapply Forall_forall in Hend; [|exact Hin]. congruence.
Qed.

(** Nor does a match of the second pattern start in front of a blank
    that is followed by one more character. *)
Lemma match_paren_blocked u c c' d :
  ends_solid u -> is_space c = true ->
  match_paren (u ++ c :: c' :: d) = None.
Proof.
  intros Hu Hc. rewrite match_paren_unfold.
  rewrite (span_app_rest _ _ _ (ends_solid_span _ Hu)). cbn [fst snd].
  case_bool_decide; [done|].
  pose proof (ends_solid_span _ Hu) as Hrest.
  destruct (span is_space u).2 as [|x rest]; [done|]. cbn [app].
  destruct (Ascii.eqb_spec x "(") as [->|Hx].
  2:{ destruct x as [[] [] [] [] [] [] [] []]; done. }
  rewrite (span_app_stop _ _ _ _ (space_not_digit _ Hc)). cbn [fst snd].
  case_bool_decide; [done|].
  destruct (span is_digit rest).2 as [|y r4]; cbn [app].
  - destruct (space_not_paren _ Hc) as [_ Hclose].
    destruct c as [[] [] [] [] [] [] [] []]; done.
  - destruct (Ascii.eqb_spec y ")") as [->|Hy].
    + by destruct r4 as [|? [|? ?]].
    + destruct y as [[] [] [] [] [] [] [] []]; done.
Qed.

Lemma match_copy_chars s n :
  match_copy s = Some n -> Forall (λ c, copy_char c = true) s.
Proof.
  rewrite match_copy_unfold. case_bool_decide; [done|].
  destruct (literal copy_word _) as [r2|] eqn:Hlit; [|done].
  destruct (at_end (copy_tail r2)) eqn:Hend; [|done]. intros _.
  destruct (span_spec is_space s) as (Hs & Hblanks & _).
  apply literal_spec in Hlit as (taken & Hr1 & _ & Htaken).
  rewrite Hs, Hr1. repeat apply Forall_app_2.
  - eapply Forall_impl; [exact Hblanks|]. intros c Hc. unfold copy_char.
    by rewrite Hc.
  - eapply Forall_impl; [exact Htaken|]. intros c Hc. unfold copy_char.
    replace (copy_letter c) with true; [apply orb_true_r|].
    symmetry. apply existsb_exists. exists (lower_char c).
    split; [by apply list_elem_of_In|apply Ascii.eqb_refl].
  - eapply Forall_impl; [exact (copy_tail_chars _ Hend)|]. intros c Hc.
    unfold copy_char, solid in *.
    by destruct (is_space c), (is_digit c).
Qed.

Lemma match_copy_shape s n :
  match_copy s = Some n ->
  (exists c d, s = c :: d /\ is_space c = true
               /\ exists x, x ∈ d /\ solid x = true).
Proof.
  rewrite match_copy_unfold. case_bool_decide as Hb; [done|].
  destruct (literal copy_word _) as [r2|] eqn:Hlit; [|done]. intros _.
  destruct (span_spec is_space s) as (Hs & Hblanks & _).
  apply literal_spec in Hlit as (taken & Hr1 & Hlen & Htaken).
  destruct (span is_space s).1 as [|c blanks]; [done|].
  apply Forall_cons in Hblanks as [Hc _].
  destruct taken as [|x taken]; [done|].
  apply Forall_cons in Htaken as [Hx _].
  exists c, (blanks ++ (span is_space s).2). split; [exact Hs|].
  split; [done|]. exists x. split.
  - rewrite Hr1, !elem_of_app, elem_of_cons. auto.
  - apply copy_letter_solid, existsb_exists. exists (lower_char x).
    split; [by apply list_elem_of_In|apply Ascii.eqb_refl].
Qed.

Lemma match_paren_shape s :
  match_paren s = Some (length s) ->
  Forall (λ c, paren_char c = true) s
  /\ last s = Some ")"
  /\ exists c c' d, s = c :: c' :: d /\ is_space c = true.
Proof.
  rewrite match_paren_unfold.
  destruct (span_spec is_space s) as (Hs & Hblanks & _).
  destruct (span is_space s) as [blanks r1]. cbn [fst snd] in *.
  case_bool_decide as Hb; [done|].
  destruct r1 as [|x r2]; [done|].
  destruct (Ascii.eqb_spec x "(") as [->|Hx].
  2:{ destruct x as [[] [] [] [] [] [] [] []]; done. }
  destruct (span_spec is_digit r2) as (Hr2 & Hdigits & _).
  destruct (span is_digit r2) as [digits r3]. cbn [fst snd] in *.
  case_bool_decide; [done|].
  destruct r3 as [|y r4]; [done|].
  destruct (Ascii.eqb_spec y ")") as [->|Hy].
  2:{ destruct y as [[] [] [] [] [] [] [] []]; done. }
  destruct (at_end r4) eqn:Hend; [|done]. intros [= Hlen].
  subst r2 s.
  assert (Hr4 : r4 = []).
  { rewrite !length_app in Hlen. cbn [length] in Hlen.
    rewrite !length_app in Hlen. cbn [length] in Hlen.
    destruct r4; [done|]. cbn [length] in *. lia. }
  subst r4. split; [|split].
  - apply Forall_app_2.
    + eapply Forall_impl; [exact Hblanks|]. intros c Hc. unfold paren_char.
      by rewrite Hc.
    + constructor; [done|]. apply Forall_app_2; [|by repeat constructor].
      eapply Forall_impl; [exact Hdigits|]. intros c Hc. unfold paren_char.
      rewrite Hc. by rewrite orb_true_r.
  - replace (blanks ++ "(" :: digits ++ [")"])
      with ((blanks ++ "(" :: digits) ++ [")"])
      by (by rewrite <- (assoc_L (++))).
    apply last_snoc.
  - destruct blanks as [|c blanks]; [done|].
    apply Forall_cons in Hblanks as [Hc _].
    destruct blanks as [|c' blanks]; cbn; eauto.
Qed.

(** *** Substitution *)

Lemma re_sub_skip_all matcher k s :
  (length s <= k)%nat -> re_sub matcher k s = [].
Proof.
  revert k. induction s as [|c s IH]; intros k Hk; [done|].
  cbn [length] in Hk. destruct k as [|k]; [lia|]. cbn. apply IH. lia.
Qed.

(** A string that the pattern matches as a whole is left out. *)
Lemma re_sub_whole matcher d :
  matcher d = Some (length d) -> re_sub matcher 0 d = [].
Proof.
  destruct d as [|c d]; [done|]. cbn [re_sub length]. intros ->.
  by apply re_sub_skip_all.
Qed.

(** Where no match starts, the characters are kept. *)
Lemma re_sub_prefix matcher u v :
  (forall a, (a < length u)%nat -> matcher (drop a u ++ v) = None) ->
  re_sub matcher 0 (u ++ v) = u ++ re_sub matcher 0 v.
Proof.
  induction u as [|c u IH]; intros Hnone; [done|].
  pose proof (Hnone 0%nat ltac:(cbn; lia)) as H0. cbn [drop app] in H0.
  cbn [app re_sub]. rewrite H0. f_equal.
  apply IH. intros a Ha. apply (Hnone (S a)). cbn. lia.
Qed.

Lemma re_sub_none matcher s :
  (forall a, (a < length s)%nat -> matcher (drop a s) = None) ->
  re_sub matcher 0 s = s.
Proof.
  intros Hnone. rewrite <- (app_nil_r s) at 1.
  rewrite re_sub_prefix; [by rewrite app_nil_r|].
  intros a Ha. rewrite app_nil_r. by apply Hnone.
Qed.

(** *** Stripping *)

Lemma lstrip_suffix s : exists blanks, s = blanks ++ lstrip s.
Proof.
  induction s as [|c s [blanks IH]]; [by exists []|]. cbn [lstrip].
  destruct (is_space c); [|by exists []].
  exists (c :: blanks). cbn. by f_equal.
Qed.

Lemma rstrip_length s : (length (rstrip s) <= length s)%nat.
Proof.
  induction s as [|c s IH]; [done|]. cbn [rstrip].
  destruct (rstrip s); [destruct (is_space c)|]; cbn in *; lia.
Qed.

Lemma rstrip_fixed_ends_solid s :
  rstrip s = s -> s ≠ [] -> ends_solid s.
Proof.
  induction s as [|c s IH]; [done|]. cbn [rstrip]. intros Hfix _.
  destruct (rstrip s) as [|y r] eqn:Hr.
  - destruct (is_space c) eqn:Hc; [done|]. injection Hfix as <-.
    by exists c.
  - injection Hfix as Hs. destruct IH as (x & Hlast & Hx); [done|by subst|].
    exists x. split; [|done]. subst s. by rewrite last_cons_cons.
Qed.

Lemma strip_fixed s : strip s = s -> lstrip s = s /\ rstrip s = s.
Proof.
  unfold strip. intros Hfix. destruct (lstrip_suffix s) as [blanks Hs].
  assert (blanks = []) as ->.
  { apply (f_equal length) in Hfix, Hs. rewrite length_app in Hs.
    pose proof (rstrip_length (lstrip s)). destruct blanks; [done|].
    cbn [length] in Hs. lia. }
  cbn in Hs. rewrite <- Hs in Hfix. by rewrite <- Hs.
Qed.

(** *** The stem *)

Lemma split_on_absent sep s : sep ∉ s -> split_on sep s = [s].
Proof.
  induction s as [|c s IH]; [done|]. intros Hsep.
  apply not_elem_of_cons in Hsep as [Hc Hs]. cbn [split_on].
  destruct (Ascii.eqb_spec c sep) as [->|_]; [done|]. by rewrite IH.
Qed.

Lemma path_name_plain s :
  "/" ∉ s -> s ≠ [] -> s ≠ ["."] -> path_name s = s.
Proof.
  intros Hsep Hne Hdot. unfold path_name. rewrite split_on_absent by done.
  rewrite filter_cons, decide_True by done. done.
Qed.

Lemma rfind_absent c s : c ∉ s -> rfind c s = None.
Proof.
  induction s as [|x s IH]; [done|]. intros Hc.
  apply not_elem_of_cons in Hc as [Hx Hs]. cbn [rfind]. rewrite IH by done.
  destruct (Ascii.eqb_spec x c); congruence.
Qed.

Lemma rfind_last c pre e : c ∉ e -> rfind c (pre ++ c :: e) = Some (length pre).
Proof.
  intros He. induction pre as [|x pre IH]; cbn [app rfind length].
  - by rewrite rfind_absent, Ascii.eqb_refl.
  - by rewrite IH.
Qed.

(** A name without dot or separator is its own stem. *)
Lemma stem_plain s : "." ∉ s -> "/" ∉ s -> s ≠ [] -> stem s = s.
Proof.
  intros Hdot Hsep Hne. unfold stem.
  rewrite path_name_plain; [by rewrite rfind_absent| done | done |].
  intros ->. apply Hdot. by left.
Qed.

(** The stem of a name with one extension behind a dot-free part that
    is not empty. *)
Lemma stem_extension pre e :
  pre ≠ [] -> e ≠ [] -> "/" ∉ pre -> "/" ∉ e -> "." ∉ e ->
  stem (pre ++ "." :: e) = pre.
Proof.
  intros Hpre He Hsep1 Hsep2 Hdot. unfold stem.
  rewrite path_name_plain.
  - rewrite rfind_last by done.
    replace (0 <? length pre)%nat with true
      by (symmetry; apply Nat.ltb_lt; destruct pre; [done|cbn; lia]).
    replace (length pre <? length (pre ++ "." :: e) - 1)%nat with true.
    + cbn [andb]. by rewrite take_app_length.
    + symmetry. apply Nat.ltb_lt. rewrite length_app. cbn [length].
      destruct e; [done|cbn; lia].
  - rewrite elem_of_app, elem_of_cons. intros [?|[?|?]]; done.
  - by destruct pre.
  - destruct pre as [|x [|y pre]]; [done| |done]. by destruct e.
Qed.

(** *** Names with one copy indicator and one extension *)

(** A name that normalization has nothing to take from: no dot, no
    separator, no match of either pattern, no blank at either end. *)
Definition canonical (base : list ascii) : Prop :=
  base ≠ [] /\ ("." ∉ base) /\ ("/" ∉ base)
  /\ re_sub match_copy 0 base = base
  /\ re_sub match_paren 0 base = base
  /\ strip base = base.

(** Nothing, or a string that one of the two patterns matches as a
    whole. *)
Definition copy_indicator (d : list ascii) : Prop :=
  d = [] \/ match_copy d = Some (length d) \/ match_paren d = Some (length d).

(** Nothing, or a dot and a suffix without dot or separator. *)
Definition extension (ext : list ascii) : Prop :=
  ext = [] \/
  exists e, ext = "." :: e /\ e ≠ [] /\ ("." ∉ e) /\ ("/" ∉ e).

Lemma canonical_ends_solid base : canonical base -> ends_solid base.
Proof.
  intros (Hne & _ & _ & _ & _ & Hstrip).
  apply rstrip_fixed_ends_solid; [|done]. by apply strip_fixed.
Qed.

Lemma last_drop {A : Type} (s : list A) a :
  (a < length s)%nat -> last (drop a s) = last s.
Proof.
  intros Ha. rewrite <- (take_drop a s) at 2. rewrite last_app.
  destruct (last (drop a s)) eqn:E; [done|].
  apply last_None in E. apply (f_equal length) in E.
  rewrite length_drop in E. cbn in E. lia.
Qed.

Lemma match_copy_no_paren s : ")" ∈ s -> match_copy s = None.
Proof.
  intros Hin. destruct (match_copy s) as [n|] eqn:E; [|done].
  apply match_copy_chars in E. eapply Forall_forall in E; [|exact Hin].
  by apply copy_char_plain in E as [? _].
Qed.

Lemma copy_indicator_plain d :
  copy_indicator d -> ("." ∉ d) /\ ("/" ∉ d).
Proof.
  intros [->|[Hd|Hd]].
  - split; apply not_elem_of_nil.
  - apply match_copy_chars in Hd.
    split; intros Hin; eapply Forall_forall in Hd; try exact Hin;
      by apply copy_char_plain in Hd as (_ & ? & ?).
  - apply match_paren_shape in Hd as [Hd _].
    split; intros Hin; eapply Forall_forall in Hd; try exact Hin;
      by apply paren_char_plain in Hd as (? & ?).
Qed.

(** The two substitutions take the indicator, and nothing else. *)
Lemma substitutions_take_indicator base d :
  canonical base -> copy_indicator d ->
  re_sub match_paren 0 (re_sub match_copy 0 (base ++ d)) = base.
Proof.
  intros Hbase Hd. pose proof (canonical_ends_solid _ Hbase) as Hsolid.
  destruct Hbase as (Hne & _ & _ & Hcopy & Hparen & _).
  destruct Hd as [->|[Hd|Hd]].
  - by rewrite app_nil_r, Hcopy.
  - destruct (match_copy_shape _ _ Hd) as (c & d' & -> & Hc & Hx).
    rewrite re_sub_prefix.
    + by rewrite (re_sub_whole _ _ Hd), app_nil_r.
    + intros a Ha. apply match_copy_blocked; [|done|done].
      by apply ends_solid_drop.
  - destruct (match_paren_shape _ Hd) as (_ & Hlast & c & c' & d' & -> & Hc).
    rewrite (re_sub_none match_copy).
    + rewrite re_sub_prefix.
      * by rewrite (re_sub_whole _ _ Hd), app_nil_r.
      * intros a Ha. apply match_paren_blocked; [|done].
        by apply ends_solid_drop.
    + intros a Ha. apply match_copy_no_paren, last_Some_elem_of.
      rewrite last_drop by done. rewrite last_app, Hlast. done.
Qed.

Lemma stem_decorated base d ext :
  canonical base -> copy_indicator d -> extension ext ->
  stem (base ++ d ++ ext) = base ++ d.
Proof.
  intros (Hne & Hdot & Hsep & _) [Hddot Hdsep]%copy_indicator_plain Hext.
  assert (Hpre : base ++ d ≠ []) by (by destruct base).
  assert (Hpdot : "." ∉ base ++ d) by (rewrite elem_of_app; tauto).
  assert (Hpsep : "/" ∉ base ++ d) by (rewrite elem_of_app; tauto).
  rewrite (assoc_L (++)).
  destruct Hext as [->|(e & -> & He & Hedot & Hesep)].
  - rewrite app_nil_r. by apply stem_plain.
  - by apply stem_extension.
Qed.

Lemma normalize_decorated base d ext :
  canonical base -> copy_indicator d -> extension ext ->
  normalize (base ++ d ++ ext) = base.
Proof.
  intros Hbase Hd Hext. unfold normalize.
  rewrite stem_decorated, substitutions_take_indicator by done.
  by destruct Hbase as (_ & _ & _ & _ & _ & ?).
Qed.

(** C5, as the code has it: a canonical name is a fixed point of the
    normalization, and a name made of a canonical name, at most one copy
    indicator and at most one extension is normalized to that canonical
    name, so that normalizing it twice gives what normalizing it once
    gives. *)
Theorem normalize_idempotent_on_decorated (base d ext : list ascii) :
  canonical base -> copy_indicator d -> extension ext ->
  normalize base = base
  /\ normalize (base ++ d ++ ext) = base
  /\ normalize (normalize (base ++ d ++ ext)) = normalize (base ++ d ++ ext).
Proof.
  intros Hbase Hd Hext.
  assert (Hfix : normalize base = base).
  { rewrite <- (app_nil_r base) at 1. rewrite <- (app_nil_r (base ++ [])).
    rewrite <- (assoc_L (++)). apply normalize_decorated; [done| |]; by left. }
  split; [done|]. rewrite normalize_decorated by done. done.
Qed.

(** *** What normalization does to any name *)

Lemma lstrip_sublist s : sublist (lstrip s) s.
Proof.
  induction s as [|c s IH]; [done|]. cbn [lstrip].
  destruct (is_space c); [by apply sublist_cons|done].
Qed.

Lemma rstrip_sublist s : sublist (rstrip s) s.
Proof.
  induction s as [|c s IH]; [done|]. cbn [rstrip].
  destruct (rstrip s) as [|y r].
  - destruct (is_space c); [apply sublist_nil_l|].
    apply sublist_skip, sublist_nil_l.
  - by apply sublist_skip.
Qed.

Lemma re_sub_sublist matcher skip s : sublist (re_sub matcher skip s) s.
Proof.
  revert skip. induction s as [|c s IH]; intros skip; [done|].
  cbn [re_sub]. destruct skip as [|k]; [|by apply sublist_cons].
  destruct (matcher (c :: s)) as [[|n]|];
    [by apply sublist_skip|by apply sublist_cons|by apply sublist_skip].
Qed.

Lemma split_on_sublist sep s :
  Forall (λ part, sublist part s) (split_on sep s).
Proof.
  induction s as [|c s IH]; cbn [split_on]; [by constructor|].
  destruct (Ascii.eqb c sep).
  - constructor; [apply sublist_nil_l|].
    eapply Forall_impl; [exact IH|]. intros part Hpart. by apply sublist_cons.
  - destruct (split_on sep s) as [|part parts].
    + constructor; [|constructor]. apply sublist_skip, sublist_nil_l.
    + apply Forall_cons in IH as [Hpart Hparts]. constructor.
      * by apply sublist_skip.
      * eapply Forall_impl; [exact Hparts|]. intros p Hp.
        by apply sublist_cons.
Qed.

Lemma last_default_Forall {A : Type} (P : A -> Prop) (l : list A) (d : A) :
  P d -> Forall P l -> P (List.last l d).
Proof.
  intros Hd. induction 1 as [|x l Hx Hl IH]; [done|].
  cbn [List.last]. destruct l; [done|]. exact IH.
Qed.

Lemma path_name_sublist s : sublist (path_name s) s.
Proof.
  unfold path_name.
  apply (last_default_Forall (λ part, sublist part s)); [apply sublist_nil_l|].
  apply Forall_forall. intros part Hin.
  apply list_elem_of_filter in Hin as [_ Hin].
  pose proof (split_on_sublist "/" s) as Hparts.
  by eapply Forall_forall in Hparts.
Qed.

Lemma stem_sublist s : sublist (stem s) s.
Proof.
  unfold stem. pose proof (path_name_sublist s) as Hname.
  destruct (rfind "." (path_name s)) as [i|]; [|done].
  destruct (_ && _); [|done].
  etrans; [apply sublist_take|done].
Qed.

Lemma lstrip_head s :
  lstrip s = [] \/ exists c r, lstrip s = c :: r /\ is_space c = false.
Proof.
  induction s as [|c s IH]; [by left|]. cbn [lstrip].
  destruct (is_space c) eqn:Hc; [done|]. right. by exists c, s.
Qed.

Lemma rstrip_idempotent s : rstrip (rstrip s) = rstrip s.
Proof.
  induction s as [|c s IH]; [done|]. cbn [rstrip].
  destruct (rstrip s) as [|y r] eqn:Hr.
  - destruct (is_space c) eqn:Hc; [done|]. cbn. by rewrite Hc.
  - cbn [rstrip]. cbn [rstrip] in IH. by rewrite IH.
Qed.

Lemma rstrip_head c s :
  is_space c = false -> exists r, rstrip (c :: s) = c :: r.
Proof.
  intros Hc. cbn [rstrip]. destruct (rstrip s) as [|y r]; [|by eexists].
  rewrite Hc. by eexists.
Qed.

(** Stripping leaves no blank at either end: stripping again changes
    nothing. *)
Lemma strip_idempotent s : strip (strip s) = strip s.
Proof.
  unfold strip. destruct (lstrip_head s) as [->|(c & r & -> & Hc)]; [done|].
  destruct (rstrip_head c r Hc) as [r' Hr']. rewrite Hr'.
  cbn [lstrip]. rewrite Hc. rewrite <- Hr'. apply rstrip_idempotent.
Qed.

(** X15: the key of a name is made of characters of the name, in the order
    the name has them, and has no blank at either end. *)
Theorem normalize_only_trims (filename : list ascii) :
  sublist (normalize filename) filename
  /\ strip (normalize filename) = normalize filename.
Proof.
  unfold normalize. split; [|apply strip_idempotent].
  unfold strip.
  etrans; [apply rstrip_sublist|]. etrans; [apply lstrip_sublist|].
  etrans; [apply re_sub_sublist|]. etrans; [apply re_sub_sublist|].
  apply stem_sublist.
Qed.

Lemma split_on_nonempty sep s : split_on sep s ≠ [].
Proof.
  destruct s as [|c s]; [done|]. cbn [split_on].
  destruct (Ascii.eqb c sep); [done|]. by destruct (split_on sep s).
Qed.

Lemma split_on_app sep d name :
  sep ∉ name ->
  split_on sep (d ++ sep :: name) = split_on sep d ++ [name].
Proof.
  intros Hname. induction d as [|c d IH]; cbn [app split_on].
  - by rewrite Ascii.eqb_refl, split_on_absent.
  - destruct (Ascii.eqb c sep); rewrite IH; [done|].
    pose proof (split_on_nonempty sep d). by destruct (split_on sep d).
Qed.

(** X16: only the last component of a path counts: the directories in front
    of the name do not change the key. *)
Theorem normalize_ignores_directory (directory name : list ascii) :
  "/" ∉ name -> name ≠ [] -> name ≠ ["."] ->
  normalize (directory ++ "/" :: name) = normalize name.
Proof.
  intros Hsep Hne Hdot.
  assert (Hpath : path_name (directory ++ "/" :: name) = path_name name).
  { rewrite (path_name_plain name) by done. unfold path_name.
    rewrite split_on_app, filter_app by done.
    rewrite filter_cons, decide_True by done. cbn [filter list_filter].
    induction (filter _ (split_on "/" directory)) as [|p ps IH]; [done|].
    cbn [app List.last]. by destruct (ps ++ [name]) eqn:E;
      [destruct ps; discriminate|]. }
  unfold normalize, stem. by rewrite Hpath.
Qed.

End Normalize.

(** ** The duplicate scan by name ([duplicate_scanner.py], lines 78-139)

    The scan reports and deletes nothing.  The model keeps what decides
    which files are looked at: the collection of the files, the groups
    by normalized name, and the files whose content is opened for the
    comparison of line 138.  The lines it prints are left out. *)

Module Scanner.
Section Scan.

Context `{DirOrder}.

Record entry : Type := Entry {
  is_file : bool;              (* [Path.is_file()] *)
  stat : option (Z * Q)        (* size and modification time, [None]
                                  when [Path.stat()] raises [OSError] *)
}.

(** The dict built at lines 84-90; [path] and [name] are both the name
    of the entry. *)
Record file_info : Type := FileInfo {
  name : string;
  size : Z;
  modified : Q;
  normalized_name : string
}.

(** Lines 81-92, for one entry of the listing. *)
Definition collect_entry (folder : gmap string entry)
    (all_files : list file_info) (entry_name : string) : list file_info :=
  match folder !! entry_name with
  | Some e =>
      if is_file e && negb (Dedup.hidden entry_name) then
        match stat e with
        | Some (st_size, st_mtime) =>
            all_files ++ [FileInfo entry_name st_size st_mtime
                            (Normalize.normalize_filename entry_name)]
        | None => all_files
        end
      else all_files
  | None => all_files
  end.

Definition all_files (folder : gmap string entry) : list file_info :=
  fold_left (collect_entry folder) (listdir folder) [].

(** [name_groups[key].append(info)] on a [defaultdict(list)], kept in
    insertion order. *)
Fixpoint defaultdict_append (key : string) (info : file_info)
    (groups : list (string * list file_info))
    : list (string * list file_info) :=
  match groups with
  | [] => [(key, [info])]
  | (k, files) :: rest =>
      if String.eqb k key then (k, files ++ [info]) :: rest
      else (k, files) :: defaultdict_append key info rest
  end.

(** Lines 97-99. *)
Definition name_groups (folder : gmap string entry)
    : list (string * list file_info) :=
  fold_left (λ groups info, defaultdict_append (normalized_name info) info groups)
            (all_files folder) [].

(** Lines 102-107: the groups of two files or more, newest first. *)
Definition duplicate_groups (folder : gmap string entry)
    : list (string * list file_info) :=
  name_groups folder ≫= λ group,
    if decide (1 < length group.2)
    then [(group.1,
           stable_sort (λ a b, Qle_bool (modified b) (modified a)) group.2)]
    else [].

(** Lines 136-139: the files that [calculate_file_hash] opens, in
    order. *)
Definition opened (folder : gmap string entry) : list string :=
  duplicate_groups folder ≫= λ group, name <$> group.2.

Definition visible (info : file_info) : Prop :=
  Dedup.hidden (name info) = false.

Lemma all_files_visible folder : Forall visible (all_files folder).
Proof.
  unfold all_files. generalize (listdir folder).
  assert (Hstart : Forall visible []) by constructor.
  revert Hstart. generalize (@nil file_info).
  intros acc Hacc names. revert acc Hacc.
  induction names as [|n names IH]; intros acc Hacc; [done|].
  cbn [fold_left]. apply IH. unfold collect_entry.
  destruct (folder !! n) as [e|]; [|done].
  destruct (is_file e); cbn [andb]; [|done].
  destruct (Dedup.hidden n) eqn:Hn; cbn [negb]; [done|].
  destruct (stat e) as [[sz mt]|]; [|done].
  apply Forall_app_2; [done|]. by repeat constructor.
Qed.

Lemma defaultdict_append_visible key info groups :
  visible info ->
  Forall (λ group, Forall visible group.2) groups ->
  Forall (λ group, Forall visible group.2) (defaultdict_append key info groups).
Proof.
  intros Hinfo. induction 1 as [|[k files] rest Hfiles Hrest IH];
    cbn [defaultdict_append].
  - by repeat constructor.
  - destruct (String.eqb k key); constructor; try done.
    cbn in *. apply Forall_app_2; [done|]. by repeat constructor.
Qed.

Lemma name_groups_visible folder :
  Forall (λ group, Forall visible group.2) (name_groups folder).
Proof.
  unfold name_groups. pose proof (all_files_visible folder) as Hall.
  assert (Hstart : Forall (λ group : string * list file_info,
                             Forall visible group.2) []) by constructor.
  revert Hstart. generalize (@nil (string * list file_info)).
  induction Hall as [|info infos Hinfo Hinfos IH]; intros acc Hacc; [done|].
  cbn [fold_left]. apply IH. by apply defaultdict_append_visible.
Qed.

Lemma duplicate_groups_visible folder :
  Forall (λ group, Forall visible group.2) (duplicate_groups folder).
Proof.
  unfold duplicate_groups. apply Forall_forall. intros group' Hin.
  apply list_elem_of_bind in Hin as (group & Hin & Hgroup).
  destruct (decide (1 < length group.2)); [|by apply elem_of_nil in Hin].
  apply list_elem_of_singleton in Hin as ->. cbn [snd].
  pose proof (name_groups_visible folder) as Hvis.
  eapply Forall_forall in Hvis; [|exact Hgroup].
  by rewrite stable_sort_perm.
Qed.

(** The scan by name leaves the hidden files out: they are not
    collected, are in no group and are not opened. *)
Lemma scanner_ignores_hidden folder entry_name :
  Dedup.hidden entry_name = true ->
  (entry_name ∉ name <$> all_files folder)
  /\ (forall key files, (key, files) ∈ duplicate_groups folder ->
       entry_name ∉ name <$> files)
  /\ entry_name ∉ opened folder.
Proof.
  intros Hh.
  assert (Hnot : forall infos, Forall visible infos ->
                               entry_name ∉ name <$> infos).
  { intros infos Hvis Hin.
    apply list_elem_of_fmap in Hin as (info & -> & Hin).
    eapply Forall_forall in Hvis; [|exact Hin]. unfold visible in Hvis.
    congruence. }
  split; [apply Hnot, all_files_visible|]. split.
  - intros key files Hin. apply Hnot.
    pose proof (duplicate_groups_visible folder) as Hvis.
    by eapply Forall_forall in Hvis; [|exact Hin].
  - unfold opened. intros Hin.
    apply list_elem_of_bind in Hin as ([key files] & Hin & Hgroup).
    revert Hin. apply Hnot.
    pose proof (duplicate_groups_visible folder) as Hvis.
    by eapply Forall_forall in Hvis; [|exact Hgroup].
Qed.

(** *** The groups by name *)

(** X17: a file is collected exactly when it is a regular file of the
    folder, not hidden, whose [stat] succeeds; it is collected with its
    size, its time and the normalization of its name, and once. *)
Theorem all_files_collects (folder : gmap string entry) (info : file_info) :
  NoDup (name <$> all_files folder)
  /\ (info ∈ all_files folder <->
      exists e st_size st_mtime,
        folder !! name info = Some e /\ is_file e = true
        /\ Dedup.hidden (name info) = false
        /\ stat e = Some (st_size, st_mtime)
        /\ info = FileInfo (name info) st_size st_mtime
                    (Normalize.normalize_filename (name info))).
Proof.
  unfold all_files.
  assert (Hgen : forall names acc,
    NoDup ((name <$> acc) ++ names) ->
    NoDup (name <$> fold_left (collect_entry folder) names acc)
    /\ (info ∈ fold_left (collect_entry folder) names acc <->
        info ∈ acc \/
        (name info ∈ names /\
         exists e st_size st_mtime,
           folder !! name info = Some e /\ is_file e = true
           /\ Dedup.hidden (name info) = false
           /\ stat e = Some (st_size, st_mtime)
           /\ info = FileInfo (name info) st_size st_mtime
                       (Normalize.normalize_filename (name info))))).
  { induction names as [|n names IH]; intros acc Hnd; cbn [fold_left].
    - rewrite app_nil_r in Hnd. split; [done|]. split; [by left|].
      intros [?|[Hin _]]; [done|by apply elem_of_nil in Hin].
    - assert (Hstep :
        (collect_entry folder acc n = acc
         /\ ~ exists e st_size st_mtime,
               folder !! n = Some e /\ is_file e = true
               /\ Dedup.hidden n = false /\ stat e = Some (st_size, st_mtime))
        \/ exists e st_size st_mtime,
             folder !! n = Some e /\ is_file e = true
             /\ Dedup.hidden n = false /\ stat e = Some (st_size, st_mtime)
             /\ collect_entry folder acc n
                = acc ++ [FileInfo n st_size st_mtime
                            (Normalize.normalize_filename n)]).
      { unfold collect_entry. destruct (folder !! n) as [e|] eqn:He.
        2:{ left. split; [done|]. by intros (? & ? & ? & ? & _). }
        destruct (is_file e) eqn:Hf; cbn [andb].
        2:{ left. split; [done|]. intros (? & ? & ? & [= <-] & ? & _).
            congruence. }
        destruct (Dedup.hidden n) eqn:Hh; cbn [negb].
        { left. split; [done|]. by intros (? & ? & ? & _ & _ & ? & _). }
        destruct (stat e) as [[sz mt]|] eqn:Hs.
        - right. by exists e, sz, mt.
        - left. split; [done|]. intros (? & ? & ? & [= <-] & _ & _ & ?).
          congruence. }
      destruct Hstep as [[-> Hno]|(e & sz & mt & He & Hf & Hh & Hs & ->)].
      + destruct (IH acc) as [IH1 IH2].
        { apply NoDup_app in Hnd as (H1 & H2 & H3).
          apply NoDup_cons in H3 as [_ H3]. apply NoDup_app.
          repeat split; try done. intros x Hx Hx'. apply (H2 x Hx). by right. }
        split; [done|]. rewrite IH2, elem_of_cons. split.
        * intros [?|[? ?]]; auto.
        * intros [?|[[Hn|?] Hex]]; auto.
          exfalso. apply Hno. rewrite <- Hn.
          destruct Hex as (e & sz & mt & ? & ? & ? & ? & _). eauto 10.
      + destruct (IH (acc ++ [FileInfo n sz mt
                                (Normalize.normalize_filename n)]))
          as [IH1 IH2].
        { rewrite fmap_app. cbn. rewrite <- (assoc_L (++)). done. }
        split; [done|]. rewrite IH2, elem_of_app, list_elem_of_singleton,
          elem_of_cons. split.
        * intros [[?| ->]|[? ?]]; auto. right. cbn. split; [by left|].
          by exists e, sz, mt.
        * intros [?|[[Hn|?] Hex]]; auto. left. right.
          destruct Hex as (e' & sz' & mt' & He' & _ & _ & Hs' & ->).
          rewrite Hn in He'. rewrite He in He'. injection He' as <-.
          rewrite Hs in Hs'. injection Hs' as <- <-. by rewrite Hn. }
  destruct (Hgen (listdir folder) []) as [Hnd Hiff].
  { cbn. apply NoDup_listdir. }
  split; [done|]. rewrite Hiff. split.
  - intros [Hin|[_ ?]]; [by apply elem_of_nil in Hin|done].
  - intros Hex. right. split; [|done].
    destruct Hex as (e & _ & _ & He & _). apply elem_of_listdir. eauto.
Qed.

Lemma defaultdict_append_groups key info groups :
  (defaultdict_append key info groups ≫= snd) ≡ₚ (groups ≫= snd) ++ [info].
Proof.
  induction groups as [|[k files] rest IH]; cbn [defaultdict_append]; [done|].
  destruct (String.eqb k key); rewrite !bind_cons; cbn [snd].
  - rewrite <- !(assoc_L (++)). f_equiv. apply Permutation_app_comm.
  - by rewrite IH, (assoc_L (++)).
Qed.

Lemma defaultdict_append_keys key info groups :
  (defaultdict_append key info groups).*1
  = if decide (key ∈ groups.*1) then groups.*1 else groups.*1 ++ [key].
Proof.
  induction groups as [|[k files] rest IH]; cbn [defaultdict_append].
  - rewrite decide_False; [done|]. apply not_elem_of_nil.
  - destruct (String.eqb_spec k key) as [->|Hk]; cbn [fmap list_fmap fst].
    + rewrite decide_True; [done|]. by left.
    + cbn in IH. rewrite IH. destruct (decide (key ∈ rest.*1)) as [Hin|Hin].
      * rewrite decide_True; [done|]. by right.
      * rewrite decide_False; [done|].
        intros [?|?]%elem_of_cons; congruence.
Qed.

(** A group holds files of one normalized name, its key, and is not
    empty. *)
Definition keyed (group : string * list file_info) : Prop :=
  group.2 ≠ [] /\ Forall (λ info, normalized_name info = group.1) group.2.

Lemma defaultdict_append_keyed info groups :
  Forall keyed groups ->
  Forall keyed (defaultdict_append (normalized_name info) info groups).
Proof.
  induction 1 as [|[k files] rest [Hne Hfiles] Hrest IH];
    cbn [defaultdict_append].
  - repeat constructor; done.
  - destruct (String.eqb_spec k (normalized_name info)) as [->|Hk].
    + constructor; [|done]. split; [by destruct files|].
      cbn in *. apply Forall_app_2; [done|]. by repeat constructor.
    + by constructor.
Qed.

(** X18: the groups by name divide the collected files: every collected
    file is in one group, the group of its normalized name, and no name
    is the key of two groups. *)
Theorem name_groups_partition (folder : gmap string entry) :
  NoDup (name_groups folder).*1
  /\ Forall keyed (name_groups folder)
  /\ (name_groups folder ≫= snd) ≡ₚ all_files folder.
Proof.
  unfold name_groups.
  assert (Hgen : forall infos groups,
    NoDup groups.*1 -> Forall keyed groups ->
    let result :=
      fold_left (λ groups info,
          defaultdict_append (normalized_name info) info groups)
        infos groups in
    NoDup result.*1 /\ Forall keyed result
    /\ (result ≫= snd) ≡ₚ (groups ≫= snd) ++ infos).
  { induction infos as [|info infos IH]; intros groups Hnd Hkeyed;
      cbn [fold_left].
    - by rewrite app_nil_r.
    - destruct (IH (defaultdict_append (normalized_name info) info groups))
        as (IH1 & IH2 & IH3).
      + rewrite defaultdict_append_keys. case_decide as Hin; [done|].
        apply NoDup_app. repeat split; [done| |apply NoDup_singleton].
        intros x Hx ->%list_elem_of_singleton. done.
      + by apply defaultdict_append_keyed.
      + split; [done|]. split; [done|].
        rewrite IH3, defaultdict_append_groups, <- (assoc_L (++)). done. }
  destruct (Hgen (all_files folder) []) as (H1 & H2 & H3);
    [constructor|constructor|]. by repeat split.
Qed.

(** X19: a group that is reported has two files or more, newest first, and
    is one of the groups by name in another order. *)
Theorem duplicate_groups_sorted (folder : gmap string entry) (key : string)
    (files : list file_info) :
  (key, files) ∈ duplicate_groups folder ->
  1 < length files
  /\ StronglySorted (λ a b, (modified b <= modified a)%Q) files
  /\ exists collected,
       (key, collected) ∈ name_groups folder /\ files ≡ₚ collected.
Proof.
  unfold duplicate_groups. intros Hin.
  apply list_elem_of_bind in Hin as ([k collected] & Hin & Hgroup).
  cbn [fst snd] in Hin.
  destruct (decide (1 < length collected)) as [Hlen|];
    [|by apply elem_of_nil in Hin].
  apply list_elem_of_singleton in Hin. injection Hin as -> ->.
  split; [by rewrite stable_sort_perm|]. split.
  - assert (Hs : StronglySorted
                   (λ a b, Qle_bool (modified b) (modified a) = true)
                   (stable_sort
                      (λ a b : file_info, Qle_bool (modified b) (modified a))
                      collected)).
    { apply stable_sort_sorted.
      - intros a b. rewrite !Qle_bool_iff.
        destruct (Qlt_le_dec (modified a) (modified b)).
        + right. by apply Qlt_le_weak.
        + by left.
      - intros a b c. rewrite !Qle_bool_iff. intros ? ?.
        by eapply Qle_trans. }
    induction Hs as [|x l Hl IH Hx]; constructor; [done|].
    eapply Forall_impl; [exact Hx|]. intros b Hb. by apply Qle_bool_iff.
  - exists collected. split; [done|]. apply stable_sort_perm.
Qed.

(** *** The report *)

(** Lines 122-131, the sum alone: [j] is the index that [enumerate]
    gives, and the file at index 0 is not counted. *)
Fixpoint add_older (j : nat) (files : list file_info) (total : Z) : Z :=
  match files with
  | [] => total
  | info :: rest =>
      add_older (S j) rest
        (if decide (0 < j)%nat then (total + size info)%Z else total)
  end.

(** Lines 116-131, over all groups. *)
Definition total_potential_savings (folder : gmap string entry) : Z :=
  fold_left (λ total group, add_older 0 group.2 total)
            (duplicate_groups folder) 0%Z.

(** [sum(f['size'] for f in files[1:])], lines 153 and 156. *)
Definition group_savings (files : list file_info) : Z :=
  fold_left Z.add (size <$> drop 1 files) 0%Z.

(** Line 153: [sorted(duplicate_groups, key=..., reverse=True)]. *)
Definition sorted_groups (folder : gmap string entry)
    : list (string * list file_info) :=
  stable_sort (λ a b, (group_savings b.2 <=? group_savings a.2)%Z)
              (duplicate_groups folder).

(** Line 155: [sorted_groups[:3]]. *)
Definition biggest (folder : gmap string entry)
    : list (string * list file_info) :=
  take 3 (sorted_groups folder).

(** Lines 28-38 and 136-141.  [read path] is the content of the file,
    [None] when opening or reading it raises. *)
Variable read : string -> option string.
Variable md5 : string -> string.

Definition calculate_file_hash (filepath : string) : option string :=
  md5 <$> read filepath.

Definition hashes (files : list file_info) : list (option string) :=
  (λ info, calculate_file_hash (name info)) <$> files.

(** [len(set(hashes)) == 1] *)
Definition identical (files : list file_info) : bool :=
  bool_decide (base.size (list_to_set (hashes files) : gset (option string)) = 1%nat).

Lemma fold_left_add_from (l : list Z) (start : Z) :
  fold_left Z.add l start = (start + fold_left Z.add l 0)%Z.
Proof.
  revert start. induction l as [|x l IH]; intros start; cbn [fold_left];
    [lia|].
  rewrite (IH (start + x)%Z), (IH (0 + x)%Z). lia.
Qed.

Lemma add_older_later j files total :
  (0 < j)%nat ->
  add_older j files total
  = (total + fold_left Z.add (size <$> files) 0)%Z.
Proof.
  revert j total. induction files as [|info rest IH]; intros j total Hj;
    cbn [add_older fmap list_fmap fold_left]; [lia|].
  destruct (decide (0 < j)%nat); [|lia].
  rewrite IH by lia. rewrite (fold_left_add_from _ (0 + size info)). lia.
Qed.

Lemma add_older_group files total :
  add_older 0 files total = (total + group_savings files)%Z.
Proof.
  unfold group_savings. destruct files as [|newest older];
    cbn [add_older drop fmap list_fmap fold_left]; [lia|].
  destruct (decide (0 < 0)%nat); [lia|]. apply add_older_later; lia.
Qed.

(** X20: the space to review that the summary gives is the sum, over
    the reported groups, of the sizes of all files of the group but the
    first, which is the figure the list of opportunities gives for the
    group. *)
Theorem total_savings_by_group (folder : gmap string entry) :
  total_potential_savings folder
  = foldr (λ group sum, (group_savings group.2 + sum)%Z) 0%Z
          (duplicate_groups folder).
Proof.
  unfold total_potential_savings.
  assert (Hgen : forall groups total,
    fold_left (λ total (group : string * list file_info),
                 add_older 0 group.2 total) groups total
    = (total + foldr (λ (group : string * list file_info) sum,
                        (group_savings group.2 + sum)%Z) 0%Z groups)%Z).
  { induction groups as [|group groups IH]; intros total;
      cbn [fold_left foldr]; [lia|].
    rewrite IH, add_older_group. lia. }
  rewrite Hgen. lia.
Qed.

Lemma sorted_groups_sorted folder :
  StronglySorted (λ a b : string * list file_info,
                    (group_savings b.2 <= group_savings a.2)%Z)
                 (sorted_groups folder).
Proof.
  assert (Hs : StronglySorted
                 (λ a b : string * list file_info,
                    (group_savings b.2 <=? group_savings a.2)%Z = true)
                 (sorted_groups folder)).
  { apply stable_sort_sorted.
    - intros a b. rewrite !Z.leb_le. lia.
    - intros a b c. rewrite !Z.leb_le. lia. }
  induction Hs as [|x l Hl IH Hx]; constructor; [done|].
  eapply Forall_impl; [exact Hx|]. intros b Hb. by apply Z.leb_le.
Qed.

Lemma StronglySorted_app_inv {A} (R : A -> A -> Prop) (l1 l2 : list A) :
  StronglySorted R (l1 ++ l2) ->
  StronglySorted R l1
  /\ forall a b, a ∈ l1 -> b ∈ l2 -> R a b.
Proof.
  induction l1 as [|x l1 IH]; cbn [app]; intros Hs.
  - split; [constructor|]. intros a b Ha. by apply elem_of_nil in Ha.
  - apply StronglySorted_inv in Hs as [Hs Hx].
    destruct (IH Hs) as [Hl1 Hcross]. apply Forall_app in Hx as [Hx1 Hx2].
    split; [by constructor|].
    intros a b Ha Hb. apply elem_of_cons in Ha as [->|Ha].
    + by eapply Forall_forall in Hx2.
    + by apply Hcross.
Qed.

(** X21: the list of opportunities shows three groups, or all of them
    when there are fewer, in the order of the space they could save,
    and no group that is left out could save more than one that is
    shown. *)
Theorem biggest_opportunities (folder : gmap string entry) :
  length (biggest folder) = min 3 (length (duplicate_groups folder))
  /\ StronglySorted (λ a b, (group_savings b.2 <= group_savings a.2)%Z)
                    (biggest folder)
  /\ exists others,
       biggest folder ++ others ≡ₚ duplicate_groups folder
       /\ forall shown other,
            shown ∈ biggest folder -> other ∈ others ->
            (group_savings other.2 <= group_savings shown.2)%Z.
Proof.
  pose proof (sorted_groups_sorted folder) as Hs.
  assert (Hp : sorted_groups folder ≡ₚ duplicate_groups folder)
    by apply stable_sort_perm.
  unfold biggest. rewrite <- (take_drop 3 (sorted_groups folder)) in Hs.
  apply StronglySorted_app_inv in Hs as [Hs Hcross].
  split; [by rewrite length_take, Hp|]. split; [done|].
  exists (drop 3 (sorted_groups folder)).
  split; [by rewrite take_drop|]. intros shown other ? ?. by apply Hcross.
Qed.

(** X22: the files of a group are reported as identical exactly when
    hashing gave the same result for all of them; this is so when all
    were read and have the same digest, and also when none of them
    could be read. *)
Theorem identical_same_hash (files : list file_info) :
  (1 < length files)%nat ->
  (identical files = true
   <-> forall a b, a ∈ files -> b ∈ files ->
         calculate_file_hash (name a) = calculate_file_hash (name b))
  /\ ((forall a, a ∈ files -> read (name a) = None) ->
      identical files = true).
Proof.
  intros Hlen.
  assert (Hiff : identical files = true
    <-> forall a b, a ∈ files -> b ∈ files ->
          calculate_file_hash (name a) = calculate_file_hash (name b)).
  { unfold identical. rewrite bool_decide_eq_true. split.
    - intros Hsize a b Ha Hb.
      apply size_1_elem_of in Hsize as [h Hset].
      assert (Hall : forall c, c ∈ files -> calculate_file_hash (name c) = h).
      { intros c Hc. apply (elem_of_singleton (C := gset (option string))).
        rewrite <- Hset. apply elem_of_list_to_set. unfold hashes.
        apply list_elem_of_fmap. by exists c. }
      by rewrite (Hall a), (Hall b).
    - intros Hsame. destruct files as [|first rest]; [cbn in Hlen; lia|].
      assert (Hset : (list_to_set (hashes (first :: rest)) : gset (option string))
                     = {[calculate_file_hash (name first)]}).
      { apply set_eq. intros h. rewrite elem_of_list_to_set, elem_of_singleton.
        unfold hashes. rewrite list_elem_of_fmap. split.
        - intros (c & -> & Hc). apply Hsame; [done|by left].
        - intros ->. exists first. split; [done|by left]. }
      rewrite Hset. apply size_singleton. }
  split; [done|]. intros Hnone. apply Hiff. intros a b Ha Hb.
  unfold calculate_file_hash. by rewrite (Hnone a), (Hnone b).
Qed.

End Scan.
End Scanner.

(** ** Hidden files *)

(** C10: a file whose name starts with a dot is left out of both scans.
    [deduplicate_folder] never opens it, puts it in no group, does not
    remove it and leaves it in the folder as it was; the scan by name
    does not collect it, puts it in no group and does not open it. *)
Theorem hidden_files_are_ignored `{DirOrder} (md5 : string -> string)
    (folder : gmap string Dedup.entry) (listed : gmap string Scanner.entry)
    (name : string) :
  Dedup.hidden name = true ->
  ((ReadFile name ∉ (Dedup.deduplicate_folder md5 (Some folder)).2)
   /\ (forall h files, (h, files) ∈ (Dedup.scan md5 folder).1 ->
         name ∉ files.*1)
   /\ (Remove name ∉ (Dedup.deduplicate_folder md5 (Some folder)).2)
   /\ exists after,
        (Dedup.deduplicate_folder md5 (Some folder)).1 = Some after
        /\ after !! name = folder !! name)
  /\ ((name ∉ Scanner.name <$> Scanner.all_files listed)
      /\ (forall key files, (key, files) ∈ Scanner.duplicate_groups listed ->
            name ∉ Scanner.name <$> files)
      /\ (name ∉ Scanner.opened listed)).
Proof.
  intros Hh. split.
  - by apply Dedup.dedup_ignores_hidden.
  - by apply Scanner.scanner_ignores_hidden.
Qed.

(** ** Runs on small directories *)

Module Examples.

(** A stand-in for the digest: the content itself. *)
Definition example_md5 (bytes : string) : string := bytes.

(** Two copies of one content, a hidden file and a file that cannot be
    read. *)
Definition example_folder : gmap string Dedup.entry :=
  <["a" := Dedup.Entry true (Some "X") 10 2048 true]>
  (<["b" := Dedup.Entry true (Some "X") 20 2048 true]>
  (<[".h" := Dedup.Entry true (Some "X") 5 7 true]>
  (<["u" := Dedup.Entry true None 5 1 true]> ∅))).

Definition example_run : option (gmap string Dedup.entry) * list event :=
  Dedup.deduplicate_folder example_md5 (Some example_folder).

Lemma dedup_keeps_newest_witness :
  ("X", [("a", 10%Q); ("b", 20%Q)]) ∈ (Dedup.scan example_md5 example_folder).1
  /\ (Dedup.resolve [("a", 10%Q); ("b", 20%Q)]).1 = "b"
  /\ (Remove "b" ∉ example_run.2).
Proof.
  assert (Hin : ("X", [("a", 10%Q); ("b", 20%Q)])
                  ∈ (Dedup.scan example_md5 example_folder).1)
    by (vm_compute; left).
  split; [exact Hin|]. split; [reflexivity|].
  destruct (Dedup.dedup_keeps_newest example_md5 example_folder "X"
              [("a", 10%Q); ("b", 20%Q)] Hin ltac:(cbn; lia))
    as (_ & _ & _ & Hrm & _).
  exact Hrm.
Defined.

Lemma unreadable_file_is_skipped_witness :
  Print (ErrorReading "u") ∈ example_run.2 /\ (Remove "u" ∉ example_run.2).
Proof.
  destruct (Dedup.unreadable_file_is_skipped example_md5 example_folder "u"
              (Dedup.Entry true None 5 1 true))
    as (_ & _ & _ & Hprinted & Hkept & _); try reflexivity.
  split; [exact Hprinted|exact Hkept].
Defined.


Lemma hidden_files_are_ignored_witness :
  (ReadFile ".h" ∉ example_run.2) /\ (Remove ".h" ∉ example_run.2).
Proof.
  destruct (hidden_files_are_ignored example_md5 example_folder ∅ ".h")
    as [(Hread & _ & Hkept & _) _]; [reflexivity|].
  split; [exact Hread|exact Hkept].
Defined.

(** The number of read errors that a run printed. *)
Definition is_read_error (e : event) : bool :=
  match e with
  | Print (ErrorReading _) => true
  | _ => false
  end.

Fixpoint read_errors (trace : list event) : nat :=
  match trace with
  | [] => 0
  | e :: rest => (if is_read_error e then 1 else 0) + read_errors rest
  end.

(** The same folder without the file that cannot be read. *)
Definition readable_folder : gmap string Dedup.entry :=
  delete "u" example_folder.

(** C7 fails for the last line: two runs print the same summary, one
    after a read error and one after none, so the number of read errors
    cannot be read off the summary. *)
Lemma summary_omits_read_errors :
  ~ exists reported : message -> nat,
      forall folder line,
        last (Dedup.deduplicate_folder example_md5 (Some folder)).2
          = Some (Print line) ->
        reported line
          = read_errors (Dedup.deduplicate_folder example_md5 (Some folder)).2.
Proof.
  intros (reported & Hreported).
  pose proof (Hreported example_folder (DedupComplete 1 "2.0 KB")
                ltac:(by vm_compute)) as H1.
  pose proof (Hreported readable_folder (DedupComplete 1 "2.0 KB")
                ltac:(by vm_compute)) as H2.
  rewrite H1 in H2. vm_compute in H2. discriminate.
Qed.

(** C2 fails for [deduplicate_folder]: the run removes a file and has
    read nothing from the terminal. *)
Lemma dedup_deletes_unasked : ~ gated example_run.2.
Proof.
  intros Hgated.
  destruct (Hgated
              [Print Scanning; ReadFile "u"; Print (ErrorReading "u");
               ReadFile "a"; ReadFile "b"; Print (DuplicateGroup "X" "b")]
              (Remove "a")
              [Print (DeletedDuplicate "a"); Print (DedupComplete 1 "2.0 KB")])
    as (prompt & answer & Hin); [by vm_compute|done|].
  repeat (apply elem_of_cons in Hin as [Hin|Hin]; [discriminate|]).
  by apply elem_of_nil in Hin.
Qed.

(** C5 fails: a second suffix, or a second copy indicator, is taken by
    a second normalization. *)
Lemma normalize_not_idempotent :
  Normalize.normalize_filename (Normalize.normalize_filename "a.b.c")
    ≠ Normalize.normalize_filename "a.b.c"
  /\ Normalize.normalize_filename (Normalize.normalize_filename "x copy (1).pdf")
    ≠ Normalize.normalize_filename "x copy (1).pdf".
Proof. split; by vm_compute. Qed.

(** Two customer folders with similar names; both hold an [a]. *)
Definition example_root : gmap string (Merge.node nat) :=
  <["acme" := Merge.Folder nat (<["a" := 1%nat]> (<["b" := 2%nat]> ∅))]>
  (<["acme1" := Merge.Folder nat (<["a" := 3%nat]> (<["c" := 4%nat]> ∅))]> ∅).

Definition always2 (_ _ : string) : bool := true.
Definition always1 (_ : string) : bool := true.

Definition example_merge : Merge.status * Merge.world nat :=
  Merge.main nat always2 always1 Fuzzy.indel_ratio "y"
    (Merge.World nat example_root []).

Lemma merge_waits_for_confirmation_witness :
  Merge.affirmative "y" = true
  /\ Input Merge.confirm_prompt "y"
     ∈ [Print (FoundCustomers 2); Print MergeSuggestions;
        Print (Suggestion "acme" ["acme"; "acme1"]);
        Input Merge.confirm_prompt "y";
        Print (MergingGroup ["acme"; "acme1"] "acme")].
Proof.
  destruct (Merge.merge_waits_for_confirmation nat always2 always1
              Fuzzy.indel_ratio "y" example_root
              [Print (FoundCustomers 2); Print MergeSuggestions;
               Print (Suggestion "acme" ["acme"; "acme1"]);
               Input Merge.confirm_prompt "y";
               Print (MergingGroup ["acme"; "acme1"] "acme")]
              [Print (AlreadyExists "acme" "a" "acme1");
               Print (CouldNotRemove "acme1"); Print MergeCompleted]
              (Move "acme1" "c" "acme"))
    as (Hyes & Hasked & _); [by vm_compute|reflexivity|].
  split; [exact Hyes|exact Hasked].
Defined.


(** A cluster whose first name has no folder. *)
Lemma merge_skips_missing_representative_witness :
  Merge.representative ["b"; "a"] ∈ ["b"; "a"]
  /\ Merge.merge_directories nat always2 always1 [["b"; "a"]]
       (Merge.World nat {["b" := Merge.Folder nat ∅]} [])
     = (Merge.Returned,
        Merge.World nat {["b" := Merge.Folder nat ∅]}
          [Print (RepMissing (Merge.representative ["b"; "a"]) ["b"; "a"])]).
Proof.
  destruct (Merge.merge_skips_missing_representative nat always2 always1
              ["b"; "a"] []
              (Merge.World nat {["b" := Merge.Folder nat ∅]} []))
    as [[Hin _] Hskip]; [cbn; lia|].
  split; [exact Hin|]. rewrite Hskip by (by vm_compute). reflexivity.
Defined.

Lemma fuzzy_group_exact_threshold_witness :
  Forall (λ group, length group = 1%nat)
    (Fuzzy.fuzzy_group Fuzzy.indel_ratio
       ["Acme Corp"; "Acme Corporation"; "Globex"] 100).
Proof.
  apply (Fuzzy.fuzzy_group_exact_threshold Fuzzy.indel_ratio
           ["Acme Corp"; "Acme Corporation"; "Globex"]).
  - exact Fuzzy.indel_ratio_100_eq.
  - by apply (bool_decide_unpack _); vm_compute.
Defined.

Lemma format_size_binary_units_witness :
  FormatSize.format_size 1536 = "1.5 KB".
Proof.
  destruct (FormatSize.format_size_binary_units 1536) as (_ & H1536 & _);
    [lia|exact H1536].
Defined.

Lemma normalize_idempotent_on_decorated_witness :
  Normalize.normalize (list_ascii_of_string "Report copy 2.pdf")
  = list_ascii_of_string "Report".
Proof.
  destruct (Normalize.normalize_idempotent_on_decorated
              (list_ascii_of_string "Report")
              (list_ascii_of_string " copy 2")
              (list_ascii_of_string ".pdf")) as (_ & Hnorm & _).
  - repeat split; try by vm_compute.
    + by apply (bool_decide_unpack _); vm_compute.
    + by apply (bool_decide_unpack _); vm_compute.
  - right. left. by vm_compute.
  - right. exists (list_ascii_of_string "pdf").
    repeat split; try by vm_compute.
    + by apply (bool_decide_unpack _); vm_compute.
    + by apply (bool_decide_unpack _); vm_compute.
  - exact Hnorm.
Defined.

End Examples.

(** ** More runs on small directories *)

Module Scenarios.
Import Examples.

Definition similar_names : list string := ["acme"; "acme1"; "globex"].

Lemma fuzzy_group_seeds_apart_witness :
  Qle_bool 80 (Fuzzy.indel_ratio "globex" "acme") = false.
Proof.
  exact (Fuzzy.fuzzy_group_seeds_apart Fuzzy.indel_ratio similar_names 80
           0 1 ["acme"; "acme1"] ["globex"]
           ltac:(by vm_compute) ltac:(by vm_compute) ltac:(lia)).
Defined.

Lemma fuzzy_group_one_cluster_witness :
  Fuzzy.fuzzy_group Fuzzy.indel_ratio ["acme"; "acme1"] 80
  = [["acme"; "acme1"]].
Proof.
  apply (Fuzzy.fuzzy_group_one_cluster Fuzzy.indel_ratio ["acme"; "acme1"] 80);
    [done|].
  intros name Hin.
  repeat (apply elem_of_cons in Hin as [->|Hin]; [by vm_compute|]).
  by apply elem_of_nil in Hin.
Defined.

Lemma merge_cancelled_leaves_tree_witness :
  Merge.main nat always2 always1 Fuzzy.indel_ratio "n"
    (Merge.World nat example_root [])
  = (Merge.Returned,
     Merge.World nat example_root
       (Merge.preamble nat Fuzzy.indel_ratio "n" example_root
        ++ [Print MergeCancelled])).
Proof.
  apply (Merge.merge_cancelled_leaves_tree nat always2 always1
           Fuzzy.indel_ratio "n" example_root).
  by vm_compute.
Defined.





Lemma hashed_a : Dedup.hashed example_md5 example_folder "a" "X" 10.
Proof.
  exists (Dedup.Entry true (Some "X") 10 2048 true), "X".
  repeat split; reflexivity.
Defined.

Lemma hashed_b : Dedup.hashed example_md5 example_folder "b" "X" 20.
Proof.
  exists (Dedup.Entry true (Some "X") 20 2048 true), "X".
  repeat split; reflexivity.
Defined.


Lemma same_digest_same_group_witness :
  exists key files,
    (key, files) ∈ (Dedup.scan example_md5 example_folder).1
    /\ ("a", 10%Q) ∈ files /\ ("b", 20%Q) ∈ files.
Proof.
  apply (Dedup.same_digest_same_group example_md5 example_folder
           "a" "b" "X" "X" 10 20 hashed_a hashed_b).
  reflexivity.
Defined.

(** A folder with one file and one subfolder. *)
Definition plain_folder : gmap string Dedup.entry :=
  <["a" := Dedup.Entry true (Some "X") 10 2048 true]>
  {["sub" := Dedup.Entry false None 5 0 true]}.

Lemma dedup_ignores_subfolders_witness :
  (ReadFile "sub"
     ∉ (Dedup.deduplicate_folder example_md5 (Some plain_folder)).2)
  /\ (Remove "sub"
        ∉ (Dedup.deduplicate_folder example_md5 (Some plain_folder)).2).
Proof.
  destruct (Dedup.dedup_ignores_subfolders example_md5 plain_folder "sub"
              (Dedup.Entry false None 5 0 true))
    as (Hread & _ & Hkept & _); [reflexivity|reflexivity|].
  by split.
Defined.

Definition single_folder : gmap string Dedup.entry :=
  {["a" := Dedup.Entry true (Some "X") 10 2048 true]}.

Lemma dedup_without_duplicates_witness :
  (Dedup.deduplicate_folder example_md5 (Some single_folder)).1
  = Some single_folder.
Proof.
  rewrite (Dedup.dedup_without_duplicates example_md5 single_folder);
    [done|].
  intros name1 name2 h mtime1 mtime2 (e1 & _ & H1 & _) (e2 & _ & H2 & _).
  unfold single_folder in H1, H2.
  apply lookup_singleton_Some in H1 as [<- _].
  by apply lookup_singleton_Some in H2 as [<- _].
Defined.

Lemma normalize_ignores_directory_witness :
  Normalize.normalize (list_ascii_of_string "d/x copy.pdf")
  = Normalize.normalize (list_ascii_of_string "x copy.pdf").
Proof.
  apply (Normalize.normalize_ignores_directory
           (list_ascii_of_string "d") (list_ascii_of_string "x copy.pdf")).
  - by apply (bool_decide_unpack _); vm_compute.
  - done.
  - done.
Defined.

(** A report and a copy of it. *)
Definition listed_folder : gmap string Scanner.entry :=
  <["r.pdf" := Scanner.Entry true (Some (7%Z, 10%Q))]>
  {["r copy.pdf" := Scanner.Entry true (Some (7%Z, 20%Q))]}.

Lemma duplicate_groups_sorted_witness :
  StronglySorted (λ a b, (Scanner.modified b <= Scanner.modified a)%Q)
    [Scanner.FileInfo "r copy.pdf" 7 20 "r"; Scanner.FileInfo "r.pdf" 7 10 "r"].
Proof.
  destruct (Scanner.duplicate_groups_sorted listed_folder "r"
              [Scanner.FileInfo "r copy.pdf" 7 20 "r";
               Scanner.FileInfo "r.pdf" 7 10 "r"])
    as (_ & Hsorted & _); [by vm_compute; left|exact Hsorted].
Defined.

Lemma format_size_small_is_exact_witness :
  FormatSize.format_size 5 = "5.0 B".
Proof.
  rewrite (FormatSize.format_size_small_is_exact 5) by lia. reflexivity.
Defined.

(** Two files neither of which can be read. *)
Lemma identical_same_hash_witness :
  Scanner.identical (λ _, None) example_md5
    [Scanner.FileInfo "r copy.pdf" 7 20 "r"; Scanner.FileInfo "r.pdf" 7 10 "r"]
  = true.
Proof.
  apply (Scanner.identical_same_hash (λ _, None) example_md5
           [Scanner.FileInfo "r copy.pdf" 7 20 "r";
            Scanner.FileInfo "r.pdf" 7 10 "r"]); [cbn; lia|].
  intros a Ha. reflexivity.
Defined.

End Scenarios.
